(** * GPGMeWrapper: key discovery and encrypt/decrypt orchestration

    A shallow embedding of [GPGMeWrapper.cpp] / [GPGMeWrapper.hpp].

    - Qt strings are sequences of UTF-16 code units, byte arrays are
      sequences of bytes; both are lists of [Z].
    - The GpgME engine is an external, stateful collaborator.  It is taken
      as a record of operations over an abstract store; every call the
      wrapper makes is also appended to a log, so that statements about
      what is (or is not) asked from the engine can be made.
    - [GPGKeyDetails] lives in a header that is not part of the two files
      modelled here; it is a parameter of the development. *)

From Stdlib Require Import List ZArith Bool Ascii String Lia.
Import ListNotations.
Open Scope Z_scope.

(* ================================================================= *)
(** ** Qt strings and byte arrays *)

Definition QString := list Z.
Definition QByteArray := list Z.

(** An ASCII literal as a [QString] / C string. *)
Fixpoint qs (s : string) : list Z :=
  match s with
  | EmptyString => []
  | String c s' => Z.of_N (N_of_ascii c) :: qs s'
  end.

Definition uchar (x : Z) : Z := x mod 256.
Definition ushort (x : Z) : Z := x mod 65536.
(** [uint]: a value converted to 32 bit unsigned. *)
Definition uint (x : Z) : Z := x mod 0x100000000.

Module QChar.
Definition ReplacementCharacter : Z := 0xfffd.
Definition LastValidCodePoint : Z := 0x10ffff.
Definition isHighSurrogate (u : Z) : bool := Z.land u 0xfffffc00 =? 0xd800.
Definition isLowSurrogate (u : Z) : bool := Z.land u 0xfffffc00 =? 0xdc00.
Definition isSurrogate (u : Z) : bool := (0xd800 <=? u) && (u <? 0xe000).
Definition surrogateToUcs4 (high low : Z) : Z :=
  Z.shiftl high 10 + low - 0x35fdc00.
Definition requiresSurrogates (ucs4 : Z) : bool := 0x10000 <=? ucs4.
Definition highSurrogate (ucs4 : Z) : Z := Z.shiftr ucs4 10 + 0xd7c0.
Definition lowSurrogate (ucs4 : Z) : Z := ucs4 mod 0x400 + 0xdc00.
End QChar.

(** [QString::size()]: the number of UTF-16 code units. *)
Definition QString_size (s : QString) : nat := List.length s.

(** [QString::operator==]: code unit by code unit. *)
Fixpoint QString_eqb (s t : QString) : bool :=
  match s, t with
  | [], [] => true
  | c :: s', d :: t' => (c =? d) && QString_eqb s' t'
  | _, _ => false
  end.

Fixpoint QString_startsWith (s t : QString) : bool :=
  match t, s with
  | [], _ => true
  | _ :: _, [] => false
  | d :: t', c :: s' => (c =? d) && QString_startsWith s' t'
  end.

(** [QString::contains(const QString &)], case sensitive: does [t] occur
    in [s] at some position. *)
Fixpoint QString_contains (s t : QString) : bool :=
  QString_startsWith s t ||
  match s with
  | [] => false
  | _ :: s' => QString_contains s' t
  end.

(** [QString::toUtf8()].  One code unit below 0x80 gives one byte, below
    0x800 two bytes, any other non-surrogate three bytes; a high surrogate
    followed by a low surrogate gives four bytes for the two units; a
    surrogate that is not part of such a pair is replaced by ['?']. *)
Fixpoint toUtf8 (s : QString) : QByteArray :=
  match s with
  | [] => []
  | u :: src =>
    if u <? 0x80 then uchar u :: toUtf8 src
    else if u <? 0x800 then
      Z.lor 0xc0 (uchar (Z.shiftr u 6))
      :: Z.lor 0x80 (Z.land u 0x3f) :: toUtf8 src
    else if negb (QChar.isSurrogate u) then
      Z.lor 0xe0 (uchar (Z.shiftr u 12))
      :: Z.lor 0x80 (Z.land (uchar (Z.shiftr u 6)) 0x3f)
      :: Z.lor 0x80 (Z.land u 0x3f) :: toUtf8 src
    else
      match src with
      | [] => [63]
      | low :: src' =>
        if QChar.isHighSurrogate u && QChar.isLowSurrogate low then
          let ucs4 := QChar.surrogateToUcs4 u low in
          let u' := ushort ucs4 in
          Z.lor 0xf0 (Z.land (uchar (Z.shiftr ucs4 18)) 0xf)
          :: Z.lor 0x80 (Z.land (uchar (Z.shiftr ucs4 12)) 0x3f)
          :: Z.lor 0x80 (Z.land (uchar (Z.shiftr u' 6)) 0x3f)
          :: Z.lor 0x80 (Z.land u' 0x3f) :: toUtf8 src'
        else 63 :: toUtf8 src
      end
  end.

Definition isContinuationByte (b : Z) : bool := Z.land b 0xc0 =? 0x80.

Definition appendUtf16 (uc : Z) : QString :=
  if QChar.requiresSurrogates uc
  then [QChar.highSurrogate uc; QChar.lowSurrogate uc]
  else [ushort uc].

Definition validCodePoint (min_uc uc : Z) : bool :=
  negb (uc <? min_uc) && negb (QChar.isSurrogate uc)
  && negb (QChar.LastValidCodePoint <? uc).

(** The decoding loop of [QString::fromUtf8]: every byte that does not
    start a well-formed sequence yields one replacement character and
    decoding resumes at the following byte. *)
Fixpoint convertToUnicode (src : QByteArray) : QString :=
  match src with
  | [] => []
  | b :: src1 =>
    let error := QChar.ReplacementCharacter :: convertToUnicode src1 in
    if b <? 0x80 then b :: convertToUnicode src1
    else if b <=? 0xc1 then error
    else if b <? 0xe0 then
      match src1 with
      | b1 :: src2 =>
        let uc := Z.lor (Z.shiftl (Z.land b 0x1f) 6) (Z.land b1 0x3f) in
        if isContinuationByte b1 && validCodePoint 0x80 uc
        then appendUtf16 uc ++ convertToUnicode src2
        else error
      | _ => error
      end
    else if b <? 0xf0 then
      match src1 with
      | b1 :: b2 :: src3 =>
        let uc := Z.lor (Z.shiftl (Z.lor (Z.shiftl (Z.land b 0x0f) 6)
                                         (Z.land b1 0x3f)) 6)
                        (Z.land b2 0x3f) in
        if isContinuationByte b1 && isContinuationByte b2
           && validCodePoint 0x800 uc
        then appendUtf16 uc ++ convertToUnicode src3
        else error
      | _ => error
      end
    else if b <? 0xf5 then
      match src1 with
      | b1 :: b2 :: b3 :: src4 =>
        let uc := Z.lor (Z.shiftl (Z.lor (Z.shiftl
                           (Z.lor (Z.shiftl (Z.land b 0x07) 6)
                                  (Z.land b1 0x3f)) 6)
                           (Z.land b2 0x3f)) 6)
                        (Z.land b3 0x3f) in
        if isContinuationByte b1 && isContinuationByte b2
           && isContinuationByte b3 && validCodePoint 0x10000 uc
        then appendUtf16 uc ++ convertToUnicode src4
        else error
      | _ => error
      end
    else error
  end.

(** [QString::fromUtf8(data, size)]: a leading byte order mark is
    skipped. *)
Definition fromUtf8 (bytes : QByteArray) : QString :=
  match bytes with
  | 0xef :: 0xbb :: 0xbf :: rest => convertToUnicode rest
  | _ => convertToUnicode bytes
  end.

(** A [const char *] handed over as a C string ends at its first NUL. *)
Fixpoint c_str (bytes : QByteArray) : QByteArray :=
  match bytes with
  | [] => []
  | b :: rest => if b =? 0 then [] else b :: c_str rest
  end.

(** [QByteArray::constData()] read as a C string. *)
Definition constData (bar : QByteArray) : QByteArray := c_str bar.

(** [QString] built from a C string. *)
Definition QString_fromCString (str : QByteArray) : QString :=
  fromUtf8 (c_str str).

(** [QString::fromStdString]. *)
Definition fromStdString (s : QByteArray) : QString := fromUtf8 s.

(** [GpgME::Data(buffer, size)]: the first [size] bytes at [buffer]. *)
Definition Data_fromBuffer (buffer : QByteArray) (size : nat) : QByteArray :=
  firstn size buffer.

(** [GpgME::Data::toString()]: the whole content. *)
Definition Data_toString (d : QByteArray) : QByteArray := d.

Definition isAscii (bytes : list Z) : Prop :=
  Forall (fun b => 0 <= b < 0x80) bytes.

(* ================================================================= *)
(** ** The GpgME engine *)

Inductive Protocol := OpenPGP | CMS.

Inductive EncryptionFlags := AlwaysTrust | NoEncryptTo | Symmetric.

(** [GpgME::Context]: the flags the wrapper sets, and, once a listing has
    been started, the answers [nextKey] has still to give.  When no answer
    is left [nextKey] signals the end of the listing. *)
Record Context (K E : Type) := mkContext {
  ctx_protocol : Protocol;
  ctx_armor : bool;
  ctx_textMode : bool;
  ctx_keyListMode : Z;
  ctx_pending : list (K * E)
}.
Arguments mkContext {K E}.
Arguments ctx_protocol {K E}.
Arguments ctx_armor {K E}.
Arguments ctx_textMode {K E}.
Arguments ctx_keyListMode {K E}.
Arguments ctx_pending {K E}.

(** The engine as the wrapper sees it.  [Error] is observed in three
    ways: its conversion to [bool] ([if (err)], [!err]), its comparison
    with zero ([error() == 0]) and its [code()].  The operations act on
    the engine's own state [Store]. *)
Record Backend := mkBackend {
  Error : Type;
  Error_bool : Error -> bool;
  Error_isZero : Error -> bool;
  Error_code : Error -> Z;
  Error_asString : Error -> QByteArray;
  Key : Type;
  Key_primaryFingerprint : Key -> QByteArray;
  Store : Type;
  engine_startKeyListing :
    Context Key Error -> QByteArray -> bool ->
    Store -> (Error * list (Key * Error)) * Store;
  engine_key :
    Context Key Error -> QByteArray -> bool -> Store -> (Key * Error) * Store;
  engine_decrypt :
    Context Key Error -> QByteArray -> Store -> (Error * QByteArray) * Store;
  engine_encryptSymmetrically :
    Context Key Error -> QByteArray -> Store -> (Error * QByteArray) * Store;
  engine_encrypt :
    Context Key Error -> list Key -> QByteArray -> EncryptionFlags ->
    Store -> (Error * QByteArray) * Store
}.

(** [struct GPGOperationResult]. *)
Record GPGOperationResult := mkResult {
  resultString : QString;
  keyFound : bool;
  decryptionSuccess : bool;
  errorMessage : QString
}.

Definition GPGOperationResult_new : GPGOperationResult :=
  {| resultString := []; keyFound := false;
     decryptionSuccess := false; errorMessage := [] |}.

Definition set_resultString (v : QString) (r : GPGOperationResult) :=
  {| resultString := v; keyFound := keyFound r;
     decryptionSuccess := decryptionSuccess r;
     errorMessage := errorMessage r |}.
Definition set_keyFound (v : bool) (r : GPGOperationResult) :=
  {| resultString := resultString r; keyFound := v;
     decryptionSuccess := decryptionSuccess r;
     errorMessage := errorMessage r |}.
Definition set_decryptionSuccess (v : bool) (r : GPGOperationResult) :=
  {| resultString := resultString r; keyFound := keyFound r;
     decryptionSuccess := v; errorMessage := errorMessage r |}.
Definition set_errorMessage (v : QString) (r : GPGOperationResult) :=
  {| resultString := resultString r; keyFound := keyFound r;
     decryptionSuccess := decryptionSuccess r; errorMessage := v |}.

(* ================================================================= *)
(** ** The wrapper *)

Section Wrapper.

Variable gpg : Backend.

(** [GPGKeyDetails] is declared in [GPGKeyDetails.hpp]; the wrapper only
    uses its loader and its list of mail addresses. *)
Variable GPGKeyDetails : Type.
Variable mailAdresses : GPGKeyDetails -> list QString.
Variable loadFromGPGMeKey : Key gpg -> GPGKeyDetails.

Abbreviation Ctx := (Context (Key gpg) (Error gpg)).

(** What the wrapper asks from the engine. *)
Inductive Call :=
| StartKeyListing (pattern : QByteArray) (secretOnly : bool)
| KeyLookup (fingerprint : QByteArray) (secret : bool)
| Decrypt (cipherText : QByteArray)
| EncryptSymmetrically (plainText : QByteArray)
| Encrypt (recipients : list (Key gpg)) (plainText : QByteArray)
          (flags : EncryptionFlags).

Record World := mkWorld {
  store : Store gpg;
  calls : list Call
}.

(** Computations that talk to the engine. *)
Definition Gpg (A : Type) : Type := World -> A * World.

Definition ret {A : Type} (a : A) : Gpg A := fun w => (a, w).

Definition bind {A B : Type} (m : Gpg A) (k : A -> Gpg B) : Gpg B :=
  fun w => let (a, w') := m w in k a w'.

Notation "x <- m ;; k" := (bind m (fun x => k))
  (at level 61, m at next level, right associativity).
Notation "' pat <- m ;; k" :=
  (bind m (fun x => match x with pat => k end))
  (at level 61, pat pattern, m at next level, right associativity).

Definition engine {A : Type} (c : Call)
  (op : Store gpg -> A * Store gpg) : Gpg A :=
  fun w => let (a, s') := op (store w) in
           (a, {| store := s'; calls := calls w ++ [c] |}).

(** *** [GpgME::Context] methods *)

Definition createForProtocol (p : Protocol) : Ctx :=
  mkContext p false false 0 [].

Definition setArmor (v : bool) (ctx : Ctx) : Ctx :=
  mkContext (ctx_protocol ctx) v (ctx_textMode ctx)
            (ctx_keyListMode ctx) (ctx_pending ctx).

Definition setTextMode (v : bool) (ctx : Ctx) : Ctx :=
  mkContext (ctx_protocol ctx) (ctx_armor ctx) v
            (ctx_keyListMode ctx) (ctx_pending ctx).

Definition setKeyListMode (mode : Z) (ctx : Ctx) : Ctx :=
  mkContext (ctx_protocol ctx) (ctx_armor ctx) (ctx_textMode ctx)
            mode (ctx_pending ctx).

Definition startKeyListing (ctx : Ctx) (pattern : QByteArray)
  (secretOnly : bool) : Gpg (Error gpg * Ctx) :=
  '(err, answers) <- engine (StartKeyListing pattern secretOnly)
                       (engine_startKeyListing gpg ctx pattern secretOnly) ;;
  ret (err, mkContext (ctx_protocol ctx) (ctx_armor ctx) (ctx_textMode ctx)
                      (ctx_keyListMode ctx) answers).

(** [ctx->nextKey(err)]: the next answer of the listing, [None] once the
    engine signals the end of results. *)
Definition nextKey (ctx : Ctx) : option (Key gpg * Error gpg) * Ctx :=
  match ctx_pending ctx with
  | [] => (None, ctx)
  | answer :: rest =>
    (Some answer,
     mkContext (ctx_protocol ctx) (ctx_armor ctx) (ctx_textMode ctx)
               (ctx_keyListMode ctx) rest)
  end.

Definition key (ctx : Ctx) (fingerprint : QByteArray) (secret : bool)
  : Gpg (Key gpg * Error gpg) :=
  engine (KeyLookup fingerprint secret) (engine_key gpg ctx fingerprint secret).

Definition decrypt (ctx : Ctx) (cipherText : QByteArray)
  : Gpg (Error gpg * QByteArray) :=
  engine (Decrypt cipherText) (engine_decrypt gpg ctx cipherText).

Definition encryptSymmetrically (ctx : Ctx) (plainText : QByteArray)
  : Gpg (Error gpg * QByteArray) :=
  engine (EncryptSymmetrically plainText)
         (engine_encryptSymmetrically gpg ctx plainText).

Definition encrypt (ctx : Ctx) (recipients : list (Key gpg))
  (plainText : QByteArray) (flags : EncryptionFlags)
  : Gpg (Error gpg * QByteArray) :=
  engine (Encrypt recipients plainText flags)
         (engine_encrypt gpg ctx recipients plainText flags).

(** *** [GPGMeWrapper] *)

Record GPGMeWrapper := mkWrapper {
  m_keys : list GPGKeyDetails;
  m_selectedKeyIndex : Z
}.

Definition selectedKeyIndex (this : GPGMeWrapper) : Z :=
  m_selectedKeyIndex this.

(** The parameter is a [uint]: what the caller passes arrives converted
    to 32 bit unsigned. *)
Definition setSelectedKeyIndex (newSelectedKeyIndex : Z)
  (this : GPGMeWrapper) : GPGMeWrapper :=
  let newSelectedKeyIndex := uint newSelectedKeyIndex in
  {| m_keys := m_keys this; m_selectedKeyIndex := newSelectedKeyIndex |}.

(** The [while (true)] loop of [listKeys], over the answers [nextKey]
    will give: an answer whose error code is not zero, or the end of the
    answers, leaves the loop. *)
Fixpoint listKeys_loop (pending : list (Key gpg * Error gpg))
  (keys : list (Key gpg)) : list (Key gpg) :=
  match pending with
  | [] => keys
  | (key, err) :: rest =>
    if negb (Error_code gpg err =? 0) then keys
    else listKeys_loop rest (keys ++ [key])
  end.

Definition listKeys (searchPattern_ : QString) : Gpg (list (Key gpg)) :=
  let protocol := OpenPGP in
  let ctx := createForProtocol protocol in
  let mode := 0 in
  let ctx := setKeyListMode mode ctx in
  let keys := [] in
  '(err, ctx) <- startKeyListing ctx (constData (toUtf8 searchPattern_)) false ;;
  if Error_bool gpg err then ret keys
  else ret (listKeys_loop (ctx_pending ctx) keys).

(** The [for] loop of [loadKeys]. *)
Definition loadKeys_loop (keys : list (Key gpg))
  (m_keys0 : list GPGKeyDetails) : list GPGKeyDetails :=
  fold_left (fun acc key => let d := loadFromGPGMeKey key in acc ++ [d])
            keys m_keys0.

Definition loadKeys (searchPattern_ : QString) (this : GPGMeWrapper)
  : Gpg GPGMeWrapper :=
  let this := {| m_keys := [];
                 m_selectedKeyIndex := m_selectedKeyIndex this |} in
  let result := GPGOperationResult_new in
  keys <- listKeys searchPattern_ ;;
  if (List.length keys =? 0)%nat then
    let result :=
      set_errorMessage
        (errorMessage result ++ qs "Error! No keys found...") result in
    ret this
  else
    ret {| m_keys := loadKeys_loop keys (m_keys this);
           m_selectedKeyIndex := m_selectedKeyIndex this |}.

(** The constructor; [m_selectedKeyIndex] has no initialiser. *)
Definition GPGMeWrapper_new (indeterminate : Z) : Gpg GPGMeWrapper :=
  loadKeys [] {| m_keys := []; m_selectedKeyIndex := indeterminate |}.

Definition getKeys (this : GPGMeWrapper) : list GPGKeyDetails := m_keys this.

Definition getNumKeys (this : GPGMeWrapper) : nat := List.length (m_keys this).

(** The iterator loop of [isPreferredKey]. *)
Fixpoint isPreferredKey_loop (addresses : list QString)
  (mailAddress_ : QString) : bool :=
  match addresses with
  | [] => false
  | it :: rest =>
    if QString_contains it mailAddress_ then true
    else isPreferredKey_loop rest mailAddress_
  end.

Definition isPreferredKey (d_ : GPGKeyDetails) (mailAddress_ : QString)
  : bool :=
  isPreferredKey_loop (mailAdresses d_) mailAddress_.

Definition decryptString (inputString_ fingerprint_ : QString)
  : Gpg GPGOperationResult :=
  let result := GPGOperationResult_new in
  let protocol := OpenPGP in
  let mode := 0 in
  let ctx := createForProtocol protocol in
  let ctx := setArmor true ctx in
  let ctx := setTextMode true ctx in
  let ctx := setKeyListMode mode ctx in
  '(key, err) <- key ctx (constData (toUtf8 fingerprint_)) false ;;
  if Error_bool gpg err then
    ret (set_errorMessage
           (errorMessage result ++
            (qs "Error finding key: "
             ++ QString_fromCString (Error_asString gpg err))) result)
  else
    let result := set_keyFound true result in
    let length := QString_size inputString_ in
    let bar := toUtf8 inputString_ in
    let encryptedString := Data_fromBuffer bar length in
    '(d_res, decryptedString) <- decrypt ctx encryptedString ;;
    if Error_isZero gpg d_res then
      let result := set_decryptionSuccess true result in
      ret (set_resultString
             (fromStdString (Data_toString decryptedString)) result)
    else
      ret (set_errorMessage
             (errorMessage result
              ++ QString_fromCString (Error_asString gpg d_res)) result).

(** The key selection loop of [encryptString]: the first key whose
    primary fingerprint equals [fingerprint_] is taken, then [break]. *)
Fixpoint encryptString_loop (keys : list (Key gpg)) (fingerprint_ : QString)
  (result : GPGOperationResult) (selectedKeys : list (Key gpg))
  : GPGOperationResult * list (Key gpg) :=
  match keys with
  | [] => (result, selectedKeys)
  | key :: rest =>
    let fingerprint := QString_fromCString (Key_primaryFingerprint gpg key) in
    if QString_eqb fingerprint fingerprint_ then
      (set_keyFound true result, selectedKeys ++ [key])
    else encryptString_loop rest fingerprint_ result selectedKeys
  end.

Definition encryptString (inputString_ fingerprint_ recipientMail_ : QString)
  (symmetricEncryption_ : bool) : Gpg GPGOperationResult :=
  let result := GPGOperationResult_new in
  let selectedKeys := [] in
  keys <- listKeys recipientMail_ ;;
  let '(result, selectedKeys) :=
    encryptString_loop keys fingerprint_ result selectedKeys in
  let protocol := OpenPGP in
  let ctx := createForProtocol protocol in
  let ctx := setArmor true ctx in
  let ctx := setTextMode true ctx in
  let length := QString_size inputString_ in
  let bar := toUtf8 inputString_ in
  let plainTextData := Data_fromBuffer bar length in
  let flags := AlwaysTrust in
  if symmetricEncryption_ then
    let flags := Symmetric in
    '(err, ciphertext) <- encryptSymmetrically ctx plainTextData ;;
    if negb (Error_bool gpg err) then
      let result := set_decryptionSuccess true result in
      ret (set_resultString
             (fromStdString (Data_toString ciphertext)) result)
    else
      ret (set_resultString
             (resultString result ++
              (qs "ERROR in syymetric encryption: "
               ++ QString_fromCString (Error_asString gpg err))) result)
  else
    '(enRes, ciphertext) <- encrypt ctx selectedKeys plainTextData flags ;;
    if Error_isZero gpg enRes then
      let result := set_decryptionSuccess true result in
      ret (set_resultString
             (fromStdString (Data_toString ciphertext)) result)
    else
      ret (set_errorMessage
             (errorMessage result ++
              (qs "Encryption Failed: "
               ++ QString_fromCString (Error_asString gpg enRes))) result).

End Wrapper.

Arguments StartKeyListing {gpg}.
Arguments KeyLookup {gpg}.
Arguments Decrypt {gpg}.
Arguments EncryptSymmetrically {gpg}.
Arguments Encrypt {gpg}.
Arguments mkWorld {gpg}.
Arguments store {gpg}.
Arguments calls {gpg}.
Arguments mkWrapper {GPGKeyDetails}.
Arguments m_keys {GPGKeyDetails}.
Arguments m_selectedKeyIndex {GPGKeyDetails}.
Arguments getKeys {GPGKeyDetails}.
Arguments getNumKeys {GPGKeyDetails}.
Arguments isPreferredKey {GPGKeyDetails}.
Arguments loadKeys gpg {GPGKeyDetails}.

(** The context [listKeys] works with, and the one [decryptString] and
    [encryptString] work with. *)
Definition listing_ctx (gpg : Backend) : Context (Key gpg) (Error gpg) :=
  setKeyListMode gpg 0 (createForProtocol gpg OpenPGP).

Definition decrypt_ctx (gpg : Backend) : Context (Key gpg) (Error gpg) :=
  setKeyListMode gpg 0
    (setTextMode gpg true (setArmor gpg true (createForProtocol gpg OpenPGP))).

Definition encrypt_ctx (gpg : Backend) : Context (Key gpg) (Error gpg) :=
  setTextMode gpg true (setArmor gpg true (createForProtocol gpg OpenPGP)).

(** The input buffer [decryptString] and [encryptString] build. *)
Definition input_buffer (inputString_ : QString) : QByteArray :=
  Data_fromBuffer (toUtf8 inputString_) (QString_size inputString_).

(** Does the key [k] have the primary fingerprint [fingerprint_]: the test
    of the selection loop of [encryptString]. *)
Definition has_fingerprint (gpg : Backend) (fingerprint_ : QString)
  (k : Key gpg) : bool :=
  QString_eqb (QString_fromCString (Key_primaryFingerprint gpg k)) fingerprint_.

(** The recipients [encryptString] ends up with, and its [keyFound], for
    the outcome of the search through the listed keys. *)
Definition selection {gpg : Backend} (found : option (Key gpg))
  : list (Key gpg) :=
  match found with Some k => [k] | None => [] end.

Definition is_found {gpg : Backend} (found : option (Key gpg)) : bool :=
  match found with Some _ => true | None => false end.

(* ================================================================= *)
(** ** The user ids of a raw key *)

(** [gpgme_user_id_t]: of the C structure only [name] is read; [next]
    makes the structures of one key a linked list, here a list. *)
Record gpgme_user_id := mk_gpgme_user_id {
  uid_name : QByteArray
}.

(** [gpgme_key_t]: of the C structure only [uids], the head of the list
    of user ids, is read. *)
Record gpgme_key := mk_gpgme_key {
  key_uids : list gpgme_user_id
}.

(** The [for] loop of [getUIDsForKey], from the user id [uid] on. *)
Fixpoint getUIDsForKey_loop (uid : list gpgme_user_id)
  (result : list QString) : list QString :=
  match uid with
  | [] => result
  | u :: next =>
    getUIDsForKey_loop next (result ++ [QString_fromCString (uid_name u)])
  end.

Definition getUIDsForKey (key : gpgme_key) : list QString :=
  let result := [] in
  getUIDsForKey_loop (key_uids key) result.

(* ================================================================= *)
(** ** A sample engine

    A small key ring with a reversible text armor, used to run the wrapper
    on concrete inputs. *)

Module Sample.

Record SKey := mkSKey {
  fpr : QByteArray;
  uid : QByteArray;
  readError : Z
}.

Record Ring := mkRing {
  ring_keys : list SKey;
  listingError : Z;
  passphraseError : Z
}.

Definition asString (code : Z) : QByteArray :=
  match code with
  | 0 => qs "Success"
  | 11 => qs "Bad passphrase"
  | 55 => qs "Invalid value"
  | 58 => qs "No data"
  | 16383 => qs "End of file"
  | _ => qs "General error"
  end.

Definition armor (plain : QByteArray) : QByteArray :=
  flat_map (fun b => [65 + b / 16; 97 + b mod 16]) plain.

Fixpoint dearmor (cipher : QByteArray) : option QByteArray :=
  match cipher with
  | [] => Some []
  | h :: l :: rest =>
    if (65 <=? h) && (h <? 81) && (97 <=? l) && (l <? 113)
    then option_map (cons (16 * (h - 65) + (l - 97))) (dearmor rest)
    else None
  | _ => None
  end.

Definition nullKey : SKey := mkSKey [] [] 0.

Definition sample_startKeyListing (ctx : Context SKey Z)
  (pattern : QByteArray) (secretOnly : bool) (r : Ring)
  : (Z * list (SKey * Z)) * Ring :=
  ((listingError r,
    map (fun k => (k, readError k))
        (filter (fun k => QString_contains (uid k) pattern) (ring_keys r))),
   r).

Definition sample_key (ctx : Context SKey Z) (fingerprint : QByteArray)
  (secret : bool) (r : Ring) : (SKey * Z) * Ring :=
  match find (fun k => QString_eqb (fpr k) fingerprint) (ring_keys r) with
  | Some k => ((k, 0), r)
  | None => ((nullKey, 16383), r)
  end.

Definition sample_decrypt (ctx : Context SKey Z) (cipherText : QByteArray)
  (r : Ring) : (Z * QByteArray) * Ring :=
  match dearmor cipherText with
  | Some plain => ((0, plain), r)
  | None => ((58, []), r)
  end.

Definition sample_encryptSymmetrically (ctx : Context SKey Z)
  (plainText : QByteArray) (r : Ring) : (Z * QByteArray) * Ring :=
  if passphraseError r =? 0 then ((0, armor plainText), r)
  else ((passphraseError r, []), r).

Definition sample_encrypt (ctx : Context SKey Z) (recipients : list SKey)
  (plainText : QByteArray) (flags : EncryptionFlags) (r : Ring)
  : (Z * QByteArray) * Ring :=
  match recipients with
  | [] => ((55, []), r)
  | _ => ((0, armor plainText), r)
  end.

Definition backend : Backend :=
  {| Error := Z;
     Error_bool := fun e => negb (e =? 0);
     Error_isZero := fun e => e =? 0;
     Error_code := fun e => e;
     Error_asString := asString;
     Key := SKey;
     Key_primaryFingerprint := fpr;
     Store := Ring;
     engine_startKeyListing := sample_startKeyListing;
     engine_key := sample_key;
     engine_decrypt := sample_decrypt;
     engine_encryptSymmetrically := sample_encryptSymmetrically;
     engine_encrypt := sample_encrypt |}.

Record Details := mkDetails {
  fingerprint : QString;
  mails : list QString
}.

Definition load (k : SKey) : Details :=
  {| fingerprint := fromUtf8 (fpr k); mails := [fromUtf8 (uid k)] |}.

Definition alice : SKey := mkSKey (qs "A1B2") (qs "alice@example.org") 0.
Definition bob : SKey := mkSKey (qs "C3D4") (qs "bob@example.org") 0.
Definition broken : SKey := mkSKey (qs "E5F6") (qs "eve@example.org") 1.
Definition carol : SKey := mkSKey (qs "0789") (qs "carol@example.org") 0.

(** A ring with two good keys. *)
Definition ring : Ring := mkRing [alice; bob] 0 0.
(** No key at all. *)
Definition ring_empty : Ring := mkRing [] 0 0.
(** A ring that cannot be listed. *)
Definition ring_locked : Ring := mkRing [alice; bob] 1 0.
(** A ring whose third entry cannot be read. *)
Definition ring_broken : Ring := mkRing [alice; bob; broken; carol] 0 0.

Definition world (r : Ring) : World backend := @mkWorld backend r [].

End Sample.

(* ================================================================= *)
(** ** Strings: what the Qt operations compute *)

Lemma QString_eqb_eq (s t : QString) : QString_eqb s t = true <-> s = t.
Proof.
  revert t; induction s as [|c s IH]; intros [|d t]; simpl;
    try (split; [discriminate | congruence]); try tauto.
  rewrite andb_true_iff, Z.eqb_eq, IH.
  split; [intros [-> ->]; reflexivity | intros H; inversion H; auto].
Qed.

Lemma QString_eqb_refl (s : QString) : QString_eqb s s = true.
Proof. apply QString_eqb_eq; reflexivity. Qed.

Lemma QString_eqb_neq (s t : QString) : QString_eqb s t = false <-> s <> t.
Proof.
  rewrite <- QString_eqb_eq. destruct (QString_eqb s t); split; congruence.
Qed.

Lemma QString_startsWith_spec (s t : QString) :
  QString_startsWith s t = true <-> exists post, s = t ++ post.
Proof.
  revert s; induction t as [|d t IH]; intros s; simpl.
  - split; [exists s; reflexivity | destruct s; reflexivity].
  - destruct s as [|c s]; simpl.
    + split; [discriminate | intros [post H]; discriminate].
    + rewrite andb_true_iff, Z.eqb_eq, IH. split.
      * intros [-> [post ->]]. exists post; reflexivity.
      * intros [post H]. inversion H; subst. split; eauto.
Qed.

(** [contains] is literal substring search. *)
Lemma QString_contains_spec (s t : QString) :
  QString_contains s t = true <-> exists pre post, s = pre ++ t ++ post.
Proof.
  induction s as [|c s IH].
  - change (QString_contains [] t) with (QString_startsWith [] t || false).
    rewrite orb_false_r, QString_startsWith_spec. split.
    + intros [post H]. exists [], post. exact H.
    + intros [pre [post H]]. destruct pre; [eauto | discriminate].
  - change (QString_contains (c :: s) t)
      with (QString_startsWith (c :: s) t || QString_contains s t).
    rewrite orb_true_iff, QString_startsWith_spec, IH. split.
    + intros [[post H] | [pre [post H]]].
      * exists [], post. exact H.
      * exists (c :: pre), post. simpl. rewrite H. reflexivity.
    + intros [pre [post H]]. destruct pre as [|c' pre].
      * left. exists post. exact H.
      * right. inversion H; subst. eauto.
Qed.

(** No code unit takes less than one byte: the size of a [QString] never
    exceeds the size of its UTF-8 encoding. *)
Lemma toUtf8_size_le (s : QString) :
  (QString_size s <= List.length (toUtf8 s))%nat.
Proof.
  unfold QString_size.
  assert (H : forall n s, (List.length s <= n)%nat ->
                          (List.length s <= List.length (toUtf8 s))%nat).
  { clear s. induction n as [|n IH]; intros [|u src] Hn;
      cbn [List.length toUtf8] in *; try lia.
    repeat match goal with
           | |- context [if ?b then _ else _] => destruct b
           end; cbn [List.length]; try (specialize (IH src); lia).
    destruct src as [|low src']; cbn [List.length] in *; [lia|].
    destruct (QChar.isHighSurrogate u && QChar.isLowSurrogate low);
      cbn [List.length].
    - specialize (IH src'). lia.
    - specialize (IH (low :: src')). cbn [List.length] in IH. lia. }
  apply (H (List.length s)). lia.
Qed.

Lemma toUtf8_ascii (s : QString) : isAscii s -> toUtf8 s = s.
Proof.
  induction 1 as [|u src Hu _ IH]; cbn [toUtf8]; [reflexivity|].
  destruct (Z.ltb_spec u 0x80); [|lia].
  unfold uchar. rewrite Z.mod_small by lia. congruence.
Qed.

Lemma convertToUnicode_ascii (bytes : QByteArray) :
  isAscii bytes -> convertToUnicode bytes = bytes.
Proof.
  induction 1 as [|b src Hb _ IH]; cbn [convertToUnicode]; [reflexivity|].
  destruct (Z.ltb_spec b 0x80); [|lia]. cbv zeta. congruence.
Qed.

Lemma fromUtf8_ascii (bytes : QByteArray) :
  isAscii bytes -> fromUtf8 bytes = bytes.
Proof.
  intros H.
  assert (E : fromUtf8 bytes = convertToUnicode bytes).
  { destruct bytes as [|b0 rest]; [reflexivity|].
    inversion H as [|? ? Hb0 _]; subst.
    unfold fromUtf8.
    destruct (Z.eq_dec b0 0xef) as [->|Hne]; [lia|].
    destruct b0 as [|p|p]; try reflexivity.
    do 8 (destruct p as [p|p|]; try reflexivity).
    all: try (exfalso; apply Hne; reflexivity); lia. }
  rewrite E. apply convertToUnicode_ascii. exact H.
Qed.

Lemma isAscii_forallb (bytes : list Z) :
  forallb (fun b => (0 <=? b) && (b <? 0x80)) bytes = true -> isAscii bytes.
Proof.
  intros H. apply Forall_forall. intros b Hb.
  apply (proj1 (forallb_forall _ _) H) in Hb.
  apply andb_true_iff in Hb. destruct Hb as [H0 H1].
  apply Z.leb_le in H0. apply Z.ltb_lt in H1. lia.
Qed.

(** On ASCII text the buffer handed to the engine is the whole text. *)
Lemma input_buffer_ascii (s : QString) : isAscii s -> input_buffer s = s.
Proof.
  intros H. unfold input_buffer, Data_fromBuffer, QString_size.
  rewrite toUtf8_ascii by exact H. apply firstn_all.
Qed.

(** In general it is the encoding cut to as many bytes as the text has
    code units. *)
Lemma input_buffer_length (s : QString) :
  List.length (input_buffer s) = QString_size s.
Proof.
  unfold input_buffer, Data_fromBuffer. rewrite length_firstn.
  pose proof (toUtf8_size_le s). lia.
Qed.

(* ================================================================= *)
(** ** Key discovery *)

Section KeyRegistry.

Variable gpg : Backend.
Variable GPGKeyDetails : Type.
Variable mailAdresses : GPGKeyDetails -> list QString.
Variable loadFromGPGMeKey : Key gpg -> GPGKeyDetails.

Implicit Types (w : World gpg) (keys : list (Key gpg)).
Implicit Types (pending : list (Key gpg * Error gpg)).

(** [listKeys_loop] is the loop of the source: one [nextKey] per turn. *)
Lemma listKeys_loop_nextKey (ctx : Context (Key gpg) (Error gpg)) keys :
  listKeys_loop gpg (ctx_pending ctx) keys =
  match nextKey gpg ctx with
  | (None, _) => keys
  | (Some (key, err), ctx') =>
    if negb (Error_code gpg err =? 0) then keys
    else listKeys_loop gpg (ctx_pending ctx') (keys ++ [key])
  end.
Proof.
  unfold nextKey. destruct (ctx_pending ctx) as [|[key err] rest];
    reflexivity.
Qed.

Lemma listKeys_loop_clean pre rest keys :
  (forall a, In a pre -> Error_code gpg (snd a) = 0) ->
  listKeys_loop gpg (pre ++ rest) keys =
  listKeys_loop gpg rest (keys ++ map fst pre).
Proof.
  revert keys; induction pre as [|[k e] pre IH]; intros keys Hclean.
  - cbn [app map]. rewrite app_nil_r. reflexivity.
  - cbn [app map listKeys_loop fst].
    pose proof (Hclean (k, e) (or_introl eq_refl)) as He. cbn [snd] in He.
    rewrite He, Z.eqb_refl. cbn [negb].
    rewrite IH by (intros a Ha; apply Hclean; right; exact Ha).
    rewrite <- app_assoc. reflexivity.
Qed.

Lemma listKeys_loop_stop k e post keys :
  Error_code gpg e <> 0 ->
  listKeys_loop gpg ((k, e) :: post) keys = keys.
Proof.
  intros He. cbn [listKeys_loop].
  destruct (Z.eqb_spec (Error_code gpg e) 0); [contradiction | reflexivity].
Qed.

(** One call of [listKeys]: exactly one request to the engine. *)
Lemma listKeys_run (searchPattern_ : QString) w :
  listKeys gpg searchPattern_ w =
  (let answer :=
     engine_startKeyListing gpg (listing_ctx gpg)
       (constData (toUtf8 searchPattern_)) false (store w) in
   (if Error_bool gpg (fst (fst answer)) then []
    else listKeys_loop gpg (snd (fst answer)) [],
    {| store := snd answer;
       calls := calls w
                ++ [StartKeyListing (constData (toUtf8 searchPattern_)) false]
    |})).
Proof.
  unfold listKeys, startKeyListing, bind, engine, ret, listing_ctx.
  destruct (engine_startKeyListing gpg _ _ _ _) as [[err answers] s'].
  cbn [fst snd ctx_pending]. destruct (Error_bool gpg err); reflexivity.
Qed.

Lemma loadKeys_loop_map keys (acc : list GPGKeyDetails) :
  loadKeys_loop gpg GPGKeyDetails loadFromGPGMeKey keys acc =
  acc ++ map loadFromGPGMeKey keys.
Proof.
  unfold loadKeys_loop. revert acc.
  induction keys as [|k keys IH]; intros acc; cbn [fold_left map].
  - rewrite app_nil_r. reflexivity.
  - rewrite IH, <- app_assoc. reflexivity.
Qed.

Lemma loadKeys_run (searchPattern_ : QString)
  (this : GPGMeWrapper GPGKeyDetails) w :
  loadKeys gpg loadFromGPGMeKey searchPattern_ this w =
  ({| m_keys := map loadFromGPGMeKey (fst (listKeys gpg searchPattern_ w));
      m_selectedKeyIndex := m_selectedKeyIndex this |},
   snd (listKeys gpg searchPattern_ w)).
Proof.
  unfold loadKeys, bind, ret.
  destruct (listKeys gpg searchPattern_ w) as [keys w'].
  cbn [fst snd m_keys m_selectedKeyIndex].
  destruct keys as [|k keys]; cbn [List.length Nat.eqb]; [reflexivity|].
  rewrite loadKeys_loop_map. reflexivity.
Qed.

(** C8: [listKeys] gives the empty sequence when starting the listing
    reports an error; when the engine reports an error in the middle of
    the listing it gives exactly the keys answered before that error; and
    when the listing ends without an error it gives all the keys
    answered.  The loop stops at the first error. *)
Theorem listKeys_partial_result (searchPattern_ : QString) w :
  let answer :=
    fst (engine_startKeyListing gpg (listing_ctx gpg)
           (constData (toUtf8 searchPattern_)) false (store w)) in
  let keys := fst (listKeys gpg searchPattern_ w) in
  (Error_bool gpg (fst answer) = true -> keys = [])
  /\ (Error_bool gpg (fst answer) = false ->
      forall pre k e post,
        snd answer = pre ++ (k, e) :: post ->
        (forall a, In a pre -> Error_code gpg (snd a) = 0) ->
        Error_code gpg e <> 0 ->
        keys = map fst pre)
  /\ (Error_bool gpg (fst answer) = false ->
      (forall a, In a (snd answer) -> Error_code gpg (snd a) = 0) ->
      keys = map fst (snd answer)).
Proof.
  cbv zeta. rewrite listKeys_run. cbv zeta. cbn [fst].
  destruct (engine_startKeyListing gpg _ _ _ _) as [[err answers] s'].
  cbn [fst snd]. repeat split.
  - intros ->. reflexivity.
  - intros -> pre k e post -> Hclean He.
    rewrite listKeys_loop_clean by exact Hclean.
    rewrite listKeys_loop_stop by exact He. reflexivity.
  - intros -> Hclean.
    rewrite <- (app_nil_r answers) at 1.
    rewrite listKeys_loop_clean by exact Hclean. reflexivity.
Qed.

(** C6: [loadKeys] replaces the registry by one [GPGKeyDetails] per listed
    key, in the order of the listing, whatever the registry held before
    (so it is empty when the listing is empty); and as long as the engine
    answers the listing request as it did for [loadKeys], [listKeys] gives
    as many keys as [getNumKeys] counts. *)
Theorem loadKeys_consistent (searchPattern_ : QString)
  (this : GPGMeWrapper GPGKeyDetails) w :
  let listed := fst (listKeys gpg searchPattern_ w) in
  let this' := fst (loadKeys gpg loadFromGPGMeKey searchPattern_ this w) in
  getKeys this' = map loadFromGPGMeKey listed
  /\ (listed = [] -> getKeys this' = [])
  /\ getNumKeys this' = List.length listed
  /\ forall w',
       fst (engine_startKeyListing gpg (listing_ctx gpg)
              (constData (toUtf8 searchPattern_)) false (store w'))
       = fst (engine_startKeyListing gpg (listing_ctx gpg)
                (constData (toUtf8 searchPattern_)) false (store w)) ->
       List.length (fst (listKeys gpg searchPattern_ w')) = getNumKeys this'.
Proof.
  cbv zeta. rewrite loadKeys_run. unfold getKeys, getNumKeys.
  cbn [fst m_keys]. repeat split.
  - intros ->. reflexivity.
  - apply length_map.
  - intros w' Hsame. rewrite length_map, !listKeys_run. cbv zeta.
    cbn [fst]. rewrite Hsame. reflexivity.
Qed.

Lemma isPreferredKey_loop_spec (addresses : list QString)
  (mailAddress_ : QString) :
  isPreferredKey_loop addresses mailAddress_ = true <->
  exists address, In address addresses
                  /\ QString_contains address mailAddress_ = true.
Proof.
  induction addresses as [|it rest IH]; cbn [isPreferredKey_loop In].
  - split; [discriminate | intros [a [[] _]]].
  - destruct (QString_contains it mailAddress_) eqn:E.
    + split; [intros _; exists it; auto | reflexivity].
    + rewrite IH. split.
      * intros [a [Ha Hc]]. exists a; auto.
      * intros [a [[<- | Ha] Hc]]; [congruence | exists a; auto].
Qed.

(** C7: [isPreferredKey] answers [true] exactly when the mail address is a
    literal substring of one of the key's mail addresses, compared code
    unit by code unit; it answers [false] for a key without a mail
    address. *)
Theorem isPreferredKey_substring (d_ : GPGKeyDetails)
  (mailAddress_ : QString) :
  (isPreferredKey mailAdresses d_ mailAddress_ = true <->
   exists address pre post,
     In address (mailAdresses d_)
     /\ address = pre ++ mailAddress_ ++ post)
  /\ (mailAdresses d_ = [] ->
      isPreferredKey mailAdresses d_ mailAddress_ = false).
Proof.
  unfold isPreferredKey. split.
  - rewrite isPreferredKey_loop_spec. split.
    + intros [a [Ha Hc]]. apply QString_contains_spec in Hc.
      destruct Hc as [pre [post Hc]]. exists a, pre, post. auto.
    + intros [a [pre [post [Ha Hc]]]]. exists a. split; [exact Ha|].
      apply QString_contains_spec. eauto.
  - intros ->. reflexivity.
Qed.

End KeyRegistry.

(* ================================================================= *)
(** ** Decryption and encryption *)

Section CryptoOperations.

Variable gpg : Backend.

Implicit Types (w : World gpg) (keys : list (Key gpg)).

Ltac run_gpg :=
  unfold key, decrypt, encrypt, encryptSymmetrically, bind, engine, ret;
  cbv beta.

(** One call of [decryptString], request by request. *)
Lemma decryptString_run (inputString_ fingerprint_ : QString) w :
  decryptString gpg inputString_ fingerprint_ w =
  (let lookup :=
     engine_key gpg (decrypt_ctx gpg)
       (constData (toUtf8 fingerprint_)) false (store w) in
   let log1 :=
     calls w ++ [KeyLookup (constData (toUtf8 fingerprint_)) false] in
   if Error_bool gpg (snd (fst lookup)) then
     ({| resultString := []; keyFound := false; decryptionSuccess := false;
         errorMessage :=
           qs "Error finding key: "
           ++ QString_fromCString (Error_asString gpg (snd (fst lookup))) |},
      {| store := snd lookup; calls := log1 |})
   else
     let dec :=
       engine_decrypt gpg (decrypt_ctx gpg) (input_buffer inputString_)
         (snd lookup) in
     ({| resultString :=
           if Error_isZero gpg (fst (fst dec))
           then fromStdString (snd (fst dec))
           else [];
         keyFound := true;
         decryptionSuccess := Error_isZero gpg (fst (fst dec));
         errorMessage :=
           if Error_isZero gpg (fst (fst dec)) then []
           else QString_fromCString (Error_asString gpg (fst (fst dec))) |},
      {| store := snd dec;
         calls := log1 ++ [Decrypt (input_buffer inputString_)] |})).
Proof.
  unfold decryptString, decrypt_ctx, input_buffer. run_gpg.
  destruct (engine_key gpg _ _ _ _) as [[k err] s1]. cbn [fst snd store calls].
  destruct (Error_bool gpg err); [reflexivity|].
  destruct (engine_decrypt gpg _ _ _) as [[d_res out] s2]. cbn [fst snd].
  destruct (Error_isZero gpg d_res); reflexivity.
Qed.

(** The selection loop takes the first key with the fingerprint. *)
Lemma encryptString_loop_find keys (fingerprint_ : QString)
  (result : GPGOperationResult) (selectedKeys : list (Key gpg)) :
  encryptString_loop gpg keys fingerprint_ result selectedKeys =
  match find (has_fingerprint gpg fingerprint_) keys with
  | Some k => (set_keyFound true result, selectedKeys ++ [k])
  | None => (result, selectedKeys)
  end.
Proof.
  induction keys as [|k keys IH]; cbn [encryptString_loop find];
    [reflexivity|].
  unfold has_fingerprint at 1.
  destruct (QString_eqb _ fingerprint_); [reflexivity | exact IH].
Qed.

(** One call of [encryptString], request by request. *)
Lemma encryptString_run (inputString_ fingerprint_ recipientMail_ : QString)
  (symmetricEncryption_ : bool) w :
  encryptString gpg inputString_ fingerprint_ recipientMail_
    symmetricEncryption_ w =
  (let listed := listKeys gpg recipientMail_ w in
   let found := find (has_fingerprint gpg fingerprint_) (fst listed) in
   if symmetricEncryption_ then
     let enc :=
       engine_encryptSymmetrically gpg (encrypt_ctx gpg)
         (input_buffer inputString_) (store (snd listed)) in
     ({| resultString :=
           if Error_bool gpg (fst (fst enc))
           then qs "ERROR in syymetric encryption: "
                ++ QString_fromCString (Error_asString gpg (fst (fst enc)))
           else fromStdString (snd (fst enc));
         keyFound := is_found found;
         decryptionSuccess := negb (Error_bool gpg (fst (fst enc)));
         errorMessage := [] |},
      {| store := snd enc;
         calls := calls (snd listed)
                  ++ [EncryptSymmetrically (input_buffer inputString_)] |})
   else
     let enc :=
       engine_encrypt gpg (encrypt_ctx gpg) (selection found)
         (input_buffer inputString_) AlwaysTrust (store (snd listed)) in
     ({| resultString :=
           if Error_isZero gpg (fst (fst enc))
           then fromStdString (snd (fst enc))
           else [];
         keyFound := is_found found;
         decryptionSuccess := Error_isZero gpg (fst (fst enc));
         errorMessage :=
           if Error_isZero gpg (fst (fst enc)) then []
           else qs "Encryption Failed: "
                ++ QString_fromCString (Error_asString gpg (fst (fst enc)))
      |},
      {| store := snd enc;
         calls := calls (snd listed)
                  ++ [Encrypt (selection found) (input_buffer inputString_)
                              AlwaysTrust] |})).
Proof.
  unfold encryptString, encrypt_ctx, input_buffer. run_gpg.
  destruct (listKeys gpg recipientMail_ w) as [keys w1].
  rewrite encryptString_loop_find. cbn [fst snd].
  destruct (find _ keys) as [k|]; cbn [selection is_found app];
    destruct symmetricEncryption_.
  all: match goal with
       | |- context [engine_encryptSymmetrically gpg ?c ?b ?s] =>
         destruct (engine_encryptSymmetrically gpg c b s) as [[err out] s2]
       | |- context [engine_encrypt gpg ?c ?r ?b ?f ?s] =>
         destruct (engine_encrypt gpg c r b f s) as [[err out] s2]
       end; cbn [fst snd]; destruct (Error_bool gpg err);
       destruct (Error_isZero gpg err); reflexivity.
Qed.

Lemma is_found_existsb (fingerprint_ : QString) keys :
  is_found (find (has_fingerprint gpg fingerprint_) keys)
  = existsb (has_fingerprint gpg fingerprint_) keys.
Proof.
  induction keys as [|k keys IH]; cbn [find existsb is_found];
    [reflexivity|].
  destruct (has_fingerprint gpg fingerprint_ k); [reflexivity | exact IH].
Qed.

Lemma find_none_all (fingerprint_ : QString) keys :
  (forall k, In k keys ->
     QString_fromCString (Key_primaryFingerprint gpg k) <> fingerprint_) ->
  find (has_fingerprint gpg fingerprint_) keys = None.
Proof.
  induction keys as [|k keys IH]; intros Hno; cbn [find]; [reflexivity|].
  destruct (has_fingerprint gpg fingerprint_ k) eqn:E.
  - apply QString_eqb_eq in E. elim (Hno k (or_introl eq_refl) E).
  - apply IH. intros k' Hk'. apply Hno. right. exact Hk'.
Qed.

Lemma find_first_match (fingerprint_ : QString) pre k post :
  (forall k', In k' pre ->
     QString_fromCString (Key_primaryFingerprint gpg k') <> fingerprint_) ->
  QString_fromCString (Key_primaryFingerprint gpg k) = fingerprint_ ->
  find (has_fingerprint gpg fingerprint_) (pre ++ k :: post) = Some k.
Proof.
  intros Hno Hk. induction pre as [|k0 pre IH]; cbn [app find].
  - unfold has_fingerprint. rewrite Hk, QString_eqb_refl. reflexivity.
  - destruct (has_fingerprint gpg fingerprint_ k0) eqn:E.
    + apply QString_eqb_eq in E. elim (Hno k0 (or_introl eq_refl) E).
    + apply IH. intros k' Hk'. apply Hno. right. exact Hk'.
Qed.

(** C1 (as the code has it): with [symmetricEncryption_] set,
    [encryptString] still asks the engine for the keys matching the
    recipient mail and scans them for the fingerprint, before it asks for
    the symmetric encryption of the input buffer (no recipient key is
    handed over); [keyFound] is [true] exactly when a listed key has the
    given primary fingerprint. *)
Theorem encrypt_symmetric_resolves_key
  (inputString_ fingerprint_ recipientMail_ : QString) w :
  let listed := fst (listKeys gpg recipientMail_ w) in
  let out := encryptString gpg inputString_ fingerprint_ recipientMail_
               true w in
  calls (snd out)
  = calls w ++ [StartKeyListing (constData (toUtf8 recipientMail_)) false;
                EncryptSymmetrically (input_buffer inputString_)]
  /\ keyFound (fst out) = existsb (has_fingerprint gpg fingerprint_) listed.
Proof.
  cbv zeta. rewrite encryptString_run. cbv zeta. cbn [fst snd calls keyFound].
  split.
  - rewrite listKeys_run. cbv zeta. cbn [snd calls].
    rewrite <- app_assoc. reflexivity.
  - apply is_found_existsb.
Qed.

(** C2 (as the code has it): when the engine's lookup of the key by its
    fingerprint reports an error, [decryptString] returns [keyFound] and
    [decryptionSuccess] false, an empty [resultString], and an error
    message that is not empty and is made of the text
    ["Error finding key: "] followed by the engine's error string. *)
Theorem decrypt_key_not_found (inputString_ fingerprint_ : QString) w :
  let lookup :=
    fst (engine_key gpg (decrypt_ctx gpg)
           (constData (toUtf8 fingerprint_)) false (store w)) in
  let r := fst (decryptString gpg inputString_ fingerprint_ w) in
  Error_bool gpg (snd lookup) = true ->
  keyFound r = false
  /\ decryptionSuccess r = false
  /\ resultString r = []
  /\ errorMessage r
     = qs "Error finding key: "
       ++ QString_fromCString (Error_asString gpg (snd lookup))
  /\ errorMessage r <> [].
Proof.
  cbv zeta. intros Herr. rewrite decryptString_run. cbv zeta.
  rewrite Herr. cbn [fst keyFound decryptionSuccess resultString errorMessage].
  repeat split. discriminate.
Qed.


(** C5: on the asymmetric path, when no key listed for the recipient mail
    has the given primary fingerprint the engine is still asked to
    encrypt, with no recipient at all, and [keyFound] is false; when some
    listed key has it, the first such key is the one and only recipient
    handed over, and [keyFound] is true. *)
Theorem encrypt_asymmetric_selection
  (inputString_ fingerprint_ recipientMail_ : QString) w :
  let listed := fst (listKeys gpg recipientMail_ w) in
  let out := encryptString gpg inputString_ fingerprint_ recipientMail_
               false w in
  let listing := StartKeyListing (constData (toUtf8 recipientMail_)) false in
  ((forall k, In k listed ->
      QString_fromCString (Key_primaryFingerprint gpg k) <> fingerprint_) ->
   keyFound (fst out) = false
   /\ calls (snd out)
      = calls w ++ [listing;
                    Encrypt [] (input_buffer inputString_) AlwaysTrust])
  /\ (forall pre k post,
        listed = pre ++ k :: post ->
        (forall k', In k' pre ->
           QString_fromCString (Key_primaryFingerprint gpg k')
           <> fingerprint_) ->
        QString_fromCString (Key_primaryFingerprint gpg k) = fingerprint_ ->
        keyFound (fst out) = true
        /\ calls (snd out)
           = calls w ++ [listing;
                         Encrypt [k] (input_buffer inputString_) AlwaysTrust]).
Proof.
  cbv zeta. rewrite encryptString_run. cbv zeta.
  cbn [fst snd calls keyFound].
  assert (Hlog : calls (snd (listKeys gpg recipientMail_ w))
                 = calls w ++ [StartKeyListing
                                 (constData (toUtf8 recipientMail_)) false]).
  { rewrite listKeys_run. reflexivity. }
  rewrite Hlog, <- !app_assoc. cbn [app]. split.
  - intros Hno. rewrite (find_none_all _ _ Hno). split; reflexivity.
  - intros pre k post Hlisted Hno Hk.
    rewrite Hlisted, (find_first_match _ _ _ _ Hno Hk). split; reflexivity.
Qed.

(** C10: a result of [decryptString] that reports success has
    [keyFound] set, and one that has [keyFound] unset carries an empty
    [resultString]. *)
Theorem decrypt_result_invariant (inputString_ fingerprint_ : QString) w :
  let r := fst (decryptString gpg inputString_ fingerprint_ w) in
  (decryptionSuccess r = true -> keyFound r = true)
  /\ (keyFound r = false -> resultString r = []).
Proof.
  cbv zeta. rewrite decryptString_run. cbv zeta.
  destruct (Error_bool gpg (snd (fst (engine_key gpg _ _ _ _))));
    cbn [fst decryptionSuccess keyFound resultString]; split;
    intros; try reflexivity; discriminate.
Qed.

(** Whenever the key is found, the buffer [decryptString] hands to the
    engine is the UTF-8 encoding of the input cut down to as many bytes
    as the input has UTF-16 code units. *)
Lemma decryptString_buffer (inputString_ fingerprint_ : QString) w :
  Error_bool gpg
    (snd (fst (engine_key gpg (decrypt_ctx gpg)
                 (constData (toUtf8 fingerprint_)) false (store w)))) = false ->
  calls (snd (decryptString gpg inputString_ fingerprint_ w))
  = calls w ++ [KeyLookup (constData (toUtf8 fingerprint_)) false;
                Decrypt (firstn (QString_size inputString_)
                                (toUtf8 inputString_))].
Proof.
  intros Hok. rewrite decryptString_run. cbv zeta. rewrite Hok.
  cbn [snd calls]. rewrite <- app_assoc. reflexivity.
Qed.

End CryptoOperations.

(* ================================================================= *)
(** ** The input buffer and the round trip *)

(** X23: a code unit outside ASCII that is not a surrogate takes two or
    three bytes, so a text holding one has an encoding longer than the
    buffer that is cut from it. *)
Lemma toUtf8_size_lt (s : QString) :
  Exists (fun u => 0x80 <= u /\ QChar.isSurrogate u = false) s ->
  (List.length (input_buffer s) < List.length (toUtf8 s))%nat.
Proof.
  rewrite input_buffer_length. unfold QString_size.
  assert (H : forall n s, (List.length s <= n)%nat ->
            Exists (fun u => 0x80 <= u /\ QChar.isSurrogate u = false) s ->
            (List.length s < List.length (toUtf8 s))%nat).
  { clear s. induction n as [|n IH]; intros [|u src] Hn Hex;
      cbn [List.length] in Hn; try (inversion Hex; fail); try lia.
    pose proof (toUtf8_size_le src) as Hle. unfold QString_size in Hle.
    cbn [List.length toUtf8].
    destruct (Z.ltb_spec u 0x80) as [Hlt|Hge].
    - inversion Hex as [? ? [Hu _]|? ? Hex']; subst; [lia|].
      cbn [List.length]. specialize (IH src ltac:(lia) Hex'). lia.
    - destruct (u <? 0x800); [cbn [List.length]; lia|].
      destruct (QChar.isSurrogate u) eqn:Hsur; cbn [negb];
        [|cbn [List.length]; lia].
      inversion Hex as [? ? [_ Hu]|? ? Hex']; subst; [congruence|].
      destruct src as [|low src']; [inversion Hex'|].
      destruct (QChar.isHighSurrogate u && QChar.isLowSurrogate low);
        cbn [List.length] in *.
      + pose proof (toUtf8_size_le src') as Hle'.
        unfold QString_size in Hle'. lia.
      + specialize (IH (low :: src')). cbn [List.length] in IH.
        assert (Hn' : (S (List.length src') <= n)%nat) by lia.
        specialize (IH Hn' Hex'). lia. }
  apply (H (List.length s)). lia.
Qed.

Section RoundTrip.

Variable gpg : Backend.

(** X22: for ASCII text the round trip holds on every engine that, for
    the selected key, encrypts to ASCII armor and decrypts that armor to
    the plain text it was given. *)
Lemma roundtrip_ascii (text fp mail : QString) (w w' : World gpg) :
  let listed := listKeys gpg mail w in
  let enc :=
    engine_encrypt gpg (encrypt_ctx gpg)
      (selection (find (has_fingerprint gpg fp) (fst listed)))
      text AlwaysTrust (store (snd listed)) in
  let lookup :=
    engine_key gpg (decrypt_ctx gpg) (constData (toUtf8 fp)) false
      (store w') in
  let dec :=
    engine_decrypt gpg (decrypt_ctx gpg) (snd (fst enc)) (snd lookup) in
  isAscii text ->
  Error_isZero gpg (fst (fst enc)) = true ->
  isAscii (snd (fst enc)) ->
  Error_bool gpg (snd (fst lookup)) = false ->
  Error_isZero gpg (fst (fst dec)) = true ->
  snd (fst dec) = text ->
  resultString
    (fst (decryptString gpg
            (resultString (fst (encryptString gpg text fp mail false w)))
            fp w')) = text.
Proof.
  cbv zeta. intros Htext Henc Harmor Hlookup Hdec Hplain.
  rewrite encryptString_run. cbv zeta. cbn [fst resultString].
  rewrite (input_buffer_ascii text Htext), Henc.
  unfold fromStdString, Data_toString.
  rewrite (fromUtf8_ascii _ Harmor).
  rewrite decryptString_run. cbv zeta. rewrite Hlookup.
  cbn [fst resultString].
  rewrite (input_buffer_ascii _ Harmor), Hdec, Hplain.
  apply fromUtf8_ascii. exact Htext.
Qed.

End RoundTrip.

(* ================================================================= *)
(** ** The wrapper on the sample engine *)

Section OnSample.

Import Sample.

Ltac by_computation :=
  cbv zeta;
  repeat match goal with |- _ /\ _ => split end;
  vm_compute; first [reflexivity | discriminate].

(** C1, counterexample: a symmetric encryption on a ring that holds the
    key asks for the key listing first, and reports the key as found. *)
Lemma encrypt_symmetric_lists_keys :
  let out := encryptString backend (qs "hi") (qs "A1B2") (qs "alice") true
               (world ring) in
  calls (snd out)
  = [StartKeyListing (qs "alice") false; EncryptSymmetrically (qs "hi")]
  /\ keyFound (fst out) = true
  /\ decryptionSuccess (fst out) = true.
Proof. by_computation. Qed.

(** C2, counterexample: the lookup of ["ABCD"] fails on the empty ring,
    and the error message carries the engine's error string, not the
    fingerprint. *)
Lemma decrypt_error_omits_fingerprint :
  let w := world ring_empty in
  let r := fst (decryptString backend (qs "x") (qs "ABCD") w) in
  Error_bool backend
    (snd (fst (engine_key backend (decrypt_ctx backend)
                 (constData (toUtf8 (qs "ABCD"))) false (store w)))) = true
  /\ errorMessage r = qs "Error finding key: End of file"
  /\ QString_contains (errorMessage r) (qs "ABCD") = false.
Proof. by_computation. Qed.

(** C2, witness. *)
Lemma decrypt_key_not_found_witness :
  let w := world ring_empty in
  let lookup :=
    fst (engine_key backend (decrypt_ctx backend)
           (constData (toUtf8 (qs "ABCD"))) false (store w)) in
  let r := fst (decryptString backend (qs "x") (qs "ABCD") w) in
  Error_bool backend (snd lookup) = true
  /\ (keyFound r = false
      /\ decryptionSuccess r = false
      /\ resultString r = []
      /\ errorMessage r
         = qs "Error finding key: "
           ++ QString_fromCString (Error_asString backend (snd lookup))
      /\ errorMessage r <> []).
Proof.
  cbv zeta. split; [reflexivity|].
  apply (decrypt_key_not_found backend (qs "x") (qs "ABCD")
           (world ring_empty)).
  reflexivity.
Defined.



(** C4, the failing input: the text of the single code unit U+00E9 has a
    two byte encoding, and one byte of it reaches the engine, on the
    decryption and on the encryption path. *)
Theorem input_buffer_truncated :
  let text := [0xe9] in
  let dec := decryptString backend text (qs "A1B2") (world ring) in
  let enc := encryptString backend text (qs "A1B2") (qs "alice") false
               (world ring) in
  toUtf8 text = [0xc3; 0xa9]
  /\ calls (snd dec) = [KeyLookup (qs "A1B2") false; Decrypt [0xc3]]
  /\ calls (snd enc)
     = [StartKeyListing (qs "alice") false; @Encrypt backend [alice] [0xc3] AlwaysTrust].
Proof. by_computation. Qed.

(** C5, witness: no key with fingerprint ["FFFF"] among the listed keys,
    and [bob] as the first (second listed) key with ["C3D4"]. *)
Lemma encrypt_asymmetric_selection_witness :
  let w := world ring in
  let listing := StartKeyListing (constData (toUtf8 (qs "example"))) false in
  let none := encryptString backend (qs "hi") (qs "FFFF") (qs "example")
                false w in
  let some := encryptString backend (qs "hi") (qs "C3D4") (qs "example")
                false w in
  (keyFound (fst none) = false
   /\ calls (snd none)
      = calls w ++ [listing; Encrypt [] (input_buffer (qs "hi")) AlwaysTrust])
  /\ (keyFound (fst some) = true
      /\ calls (snd some)
         = calls w ++ [listing;
                       @Encrypt backend [bob] (input_buffer (qs "hi"))
                                AlwaysTrust]).
Proof.
  cbv zeta. split.
  - apply (proj1 (encrypt_asymmetric_selection backend (qs "hi") (qs "FFFF")
                    (qs "example") (world ring))).
    intros k Hk. vm_compute in Hk.
    destruct Hk as [<-|[<-|[]]]; vm_compute; discriminate.
  - apply (proj2 (encrypt_asymmetric_selection backend (qs "hi") (qs "C3D4")
                    (qs "example") (world ring)) [alice] bob []).
    + reflexivity.
    + intros k Hk. destruct Hk as [<-|[]]. vm_compute. discriminate.
    + reflexivity.
Defined.

(** C6, witness: listing again in the world [loadKeys] leaves behind
    gives as many keys as the registry counts; on the empty ring the
    registry is left empty. *)
Lemma loadKeys_consistent_witness :
  let out := loadKeys backend load (qs "example") (mkWrapper [] 7)
               (world ring) in
  let old := mkWrapper [load alice] 7 in
  List.length (fst (listKeys backend (qs "example") (snd out)))
  = getNumKeys (fst out)
  /\ getKeys (fst (loadKeys backend load [] old (world ring_empty))) = [].
Proof.
  cbv zeta. split.
  - apply (proj2 (proj2 (proj2
             (loadKeys_consistent backend Details load (qs "example")
                (mkWrapper [] 7) (world ring))))).
    reflexivity.
  - apply (proj1 (proj2
             (loadKeys_consistent backend Details load []
                (mkWrapper [load alice] 7) (world ring_empty)))).
    reflexivity.
Defined.

(** C7, witness: ["alice@"] occurs in the one mail address of [alice];
    a key without a mail address is never preferred. *)
Lemma isPreferredKey_substring_witness :
  isPreferredKey mails (load alice) (qs "alice@") = true
  /\ isPreferredKey mails (mkDetails (qs "A1B2") []) (qs "alice@") = false.
Proof.
  split.
  - apply (proj1 (isPreferredKey_substring Details mails (load alice)
                    (qs "alice@"))).
    exists (qs "alice@example.org"), [], (qs "example.org").
    split; [left|]; reflexivity.
  - apply (proj2 (isPreferredKey_substring Details mails
                    (mkDetails (qs "A1B2") []) (qs "alice@"))).
    reflexivity.
Defined.

(** C8, witness: a ring that cannot be listed, a ring whose third key
    cannot be read, and a ring that is listed to its end. *)
Lemma listKeys_partial_result_witness :
  fst (listKeys backend [] (world ring_locked)) = []
  /\ fst (listKeys backend [] (world ring_broken)) = [alice; bob]
  /\ fst (listKeys backend [] (world ring)) = [alice; bob].
Proof.
  split; [|split].
  - apply (proj1 (listKeys_partial_result backend [] (world ring_locked))).
    reflexivity.
  - apply (proj1 (proj2 (listKeys_partial_result backend []
                           (world ring_broken)))
             eq_refl [(alice, 0); (bob, 0)] broken 1 [(carol, 0)]).
    + reflexivity.
    + intros a [<-|[<-|[]]]; reflexivity.
    + discriminate.
  - apply (proj2 (proj2 (listKeys_partial_result backend [] (world ring)))
             eq_refl).
    intros a [<-|[<-|[]]]; reflexivity.
Defined.

(** C9, the failing input: the text of the single code unit U+00E9 is
    encrypted for [alice] and the result decrypted again, both with
    success; what comes back is the replacement character. *)
Theorem roundtrip_truncated :
  let w := world ring in
  let text := [0xe9] in
  let enc := encryptString backend text (qs "A1B2") (qs "alice") false w in
  let dec := decryptString backend (resultString (fst enc)) (qs "A1B2")
               (snd enc) in
  keyFound (fst enc) = true /\ decryptionSuccess (fst enc) = true
  /\ keyFound (fst dec) = true /\ decryptionSuccess (fst dec) = true
  /\ resultString (fst dec) = [0xfffd]
  /\ resultString (fst dec) <> text.
Proof. by_computation. Qed.

(** X22, witness: the sample engine does give the round trip on ASCII
    text. *)
Lemma roundtrip_ascii_sample :
  let w := world ring in
  let enc := encryptString backend (qs "hello") (qs "A1B2") (qs "alice")
               false w in
  resultString
    (fst (decryptString backend (resultString (fst enc)) (qs "A1B2")
            (snd enc))) = qs "hello".
Proof.
  cbv zeta.
  apply (roundtrip_ascii backend (qs "hello") (qs "A1B2") (qs "alice")
           (world ring)
           (snd (encryptString backend (qs "hello") (qs "A1B2") (qs "alice")
                   false (world ring)))).
  all: try (apply isAscii_forallb); vm_compute; reflexivity.
Defined.

(** C10, witness: a successful decryption on [ring], and a failed lookup
    on the empty ring. *)
Lemma decrypt_result_invariant_witness :
  keyFound (fst (decryptString backend (qs "Gi") (qs "A1B2") (world ring)))
  = true
  /\ resultString
       (fst (decryptString backend (qs "Gi") (qs "A1B2") (world ring_empty)))
     = [].
Proof.
  split.
  - apply (proj1 (decrypt_result_invariant backend (qs "Gi") (qs "A1B2")
                    (world ring))).
    reflexivity.
  - apply (proj2 (decrypt_result_invariant backend (qs "Gi") (qs "A1B2")
                    (world ring_empty))).
    reflexivity.
Defined.

End OnSample.

(* ================================================================= *)
(** ** More on key discovery *)

Lemma c_str_app_nul (a b : QByteArray) : c_str (a ++ 0 :: b) = c_str a.
Proof.
  induction a as [|x a IH]; cbn [app c_str]; [reflexivity|].
  destruct (x =? 0); [reflexivity | rewrite IH; reflexivity].
Qed.

Lemma c_str_nonzero (a : QByteArray) :
  Forall (fun b => b <> 0) a -> c_str a = a.
Proof.
  induction 1 as [|x a Hx _ IH]; cbn [c_str]; [reflexivity|].
  destruct (Z.eqb_spec x 0); [contradiction | rewrite IH; reflexivity].
Qed.

(** The code unit 0 is encoded as the byte 0, wherever it stands. *)
Lemma toUtf8_app_nul (p q : QString) :
  toUtf8 (p ++ 0 :: q) = toUtf8 p ++ 0 :: toUtf8 q.
Proof.
  assert (H : forall n p, (List.length p <= n)%nat ->
                          toUtf8 (p ++ 0 :: q) = toUtf8 p ++ 0 :: toUtf8 q).
  { clear p. induction n as [|n IH]; intros [|u src] Hn;
      cbn [List.length] in Hn; try lia; try reflexivity.
    cbn [app toUtf8].
    destruct (u <? 0x80);
      [rewrite (IH src) by lia; reflexivity|].
    destruct (u <? 0x800);
      [rewrite (IH src) by lia; reflexivity|].
    destruct (negb (QChar.isSurrogate u));
      [rewrite (IH src) by lia; reflexivity|].
    destruct src as [|low src']; cbn [app List.length] in *.
    - replace (QChar.isLowSurrogate 0) with false by reflexivity.
      rewrite andb_false_r. reflexivity.
    - destruct (QChar.isHighSurrogate u && QChar.isLowSurrogate low).
      + rewrite (IH src') by lia. reflexivity.
      + change (low :: src' ++ 0 :: q) with ((low :: src') ++ 0 :: q).
        rewrite (IH (low :: src')) by (cbn [List.length]; lia).
        reflexivity. }
  apply (H (List.length p)). lia.
Qed.

Lemma QString_contains_nil (s : QString) : QString_contains s [] = true.
Proof. apply QString_contains_spec. exists [], s. reflexivity. Qed.

Lemma QString_contains_length (s t : QString) :
  QString_contains s t = true -> (List.length t <= List.length s)%nat.
Proof.
  intros H. apply QString_contains_spec in H. destruct H as [pre [post ->]].
  rewrite !length_app. lia.
Qed.

Section KeyRegistryFacts.

Variable gpg : Backend.
Variable GPGKeyDetails : Type.
Variable mailAdresses : GPGKeyDetails -> list QString.
Variable loadFromGPGMeKey : Key gpg -> GPGKeyDetails.

Implicit Types (w : World gpg) (keys : list (Key gpg)).
Implicit Types (pending : list (Key gpg * Error gpg)).

Lemma listKeys_loop_prefix pending keys :
  exists n,
    listKeys_loop gpg pending keys = keys ++ map fst (firstn n pending)
    /\ forall a, In a (firstn n pending) -> Error_code gpg (snd a) = 0.
Proof.
  revert keys; induction pending as [|[k e] rest IH]; intros keys.
  - exists 0%nat. cbn [listKeys_loop firstn map]. rewrite app_nil_r.
    split; [reflexivity | intros a []].
  - cbn [listKeys_loop].
    destruct (Z.eqb_spec (Error_code gpg e) 0) as [He|He]; cbn [negb].
    + destruct (IH (keys ++ [k])) as [n [Heq Hclean]].
      exists (S n). cbn [firstn map fst]. split.
      * rewrite Heq, <- app_assoc. reflexivity.
      * intros a [<-|Ha]; [exact He | apply Hclean; exact Ha].
    + exists 0%nat. cbn [firstn map]. rewrite app_nil_r.
      split; [reflexivity | intros a []].
Qed.

(** X1: what [listKeys] returns is always a leading part of the keys the
    engine answered, in the engine's order, and none of the returned keys
    was answered together with an error code: no key is skipped,
    reordered, or taken from after the first error. *)
Theorem listKeys_prefix (searchPattern_ : QString) w :
  let answers :=
    snd (fst (engine_startKeyListing gpg (listing_ctx gpg)
                (constData (toUtf8 searchPattern_)) false (store w))) in
  exists n,
    fst (listKeys gpg searchPattern_ w) = map fst (firstn n answers)
    /\ forall a, In a (firstn n answers) -> Error_code gpg (snd a) = 0.
Proof.
  cbv zeta. rewrite listKeys_run. cbv zeta. cbn [fst].
  destruct (Error_bool gpg _).
  - exists 0%nat. cbn [firstn map]. split; [reflexivity | intros a []].
  - apply (listKeys_loop_prefix _ []).
Qed.

(** X2: the search pattern reaches the engine as a C string, so a pattern
    is cut at its first NUL character: whatever follows a NUL changes
    neither the keys returned nor the request made. *)
Theorem listKeys_pattern_cut_at_nul (searchPattern_ rest : QString) w :
  listKeys gpg (searchPattern_ ++ 0 :: rest) w = listKeys gpg searchPattern_ w.
Proof.
  rewrite !listKeys_run. unfold constData.
  rewrite toUtf8_app_nul, c_str_app_nul. reflexivity.
Qed.

(** X3: [loadKeys] never touches the selected key index: the index set
    before a reload, a 32 bit unsigned value (a value outside 0..2^32-1
    arrives taken modulo 2^32), is the index read after it, whatever
    number of keys the reload finds, and setting the index leaves the keys
    alone. *)
Theorem loadKeys_keeps_cursor (searchPattern_ : QString) (n : Z)
  (this : GPGMeWrapper GPGKeyDetails) w :
  let this' :=
    fst (loadKeys gpg loadFromGPGMeKey searchPattern_
           (setSelectedKeyIndex GPGKeyDetails n this) w) in
  selectedKeyIndex GPGKeyDetails this' = n mod 0x100000000
  /\ (0 <= n < 0x100000000 -> selectedKeyIndex GPGKeyDetails this' = n)
  /\ 0 <= selectedKeyIndex GPGKeyDetails this' < 0x100000000
  /\ getKeys (setSelectedKeyIndex GPGKeyDetails n this) = getKeys this
  /\ getNumKeys this'
     = List.length (fst (listKeys gpg searchPattern_ w)).
Proof.
  cbv zeta. rewrite loadKeys_run.
  unfold selectedKeyIndex, setSelectedKeyIndex, getKeys, getNumKeys, uint.
  cbv zeta. cbn [fst m_keys m_selectedKeyIndex]. rewrite length_map.
  split; [reflexivity|]. split; [|split; [|split; reflexivity]].
  - intros Hn. apply Z.mod_small. exact Hn.
  - apply Z.mod_pos_bound. reflexivity.
Qed.

(** X4: a reload whose listing cannot be started wipes the registry: the
    keys loaded before are gone and the count is zero, exactly as when no
    key matches. *)
Theorem loadKeys_failed_listing_clears (searchPattern_ : QString)
  (this : GPGMeWrapper GPGKeyDetails) w :
  let this' := fst (loadKeys gpg loadFromGPGMeKey searchPattern_ this w) in
  Error_bool gpg
    (fst (fst (engine_startKeyListing gpg (listing_ctx gpg)
                 (constData (toUtf8 searchPattern_)) false (store w)))) = true ->
  getKeys this' = [] /\ getNumKeys this' = 0%nat.
Proof.
  cbv zeta. intros Herr. rewrite loadKeys_run, listKeys_run. cbv zeta.
  unfold getKeys, getNumKeys. cbn [fst m_keys]. rewrite Herr.
  split; reflexivity.
Qed.

(** X5: constructing a wrapper asks the engine once, for all keys (the
    empty pattern, not restricted to secret keys), and fills the registry
    with one entry per listed key; the selected key index is whatever it
    happened to be. *)
Theorem GPGMeWrapper_new_lists_all (indeterminate : Z) w :
  let out := GPGMeWrapper_new gpg GPGKeyDetails loadFromGPGMeKey
               indeterminate w in
  calls (snd out) = calls w ++ [StartKeyListing [] false]
  /\ getKeys (fst out) = map loadFromGPGMeKey (fst (listKeys gpg [] w))
  /\ selectedKeyIndex GPGKeyDetails (fst out) = indeterminate.
Proof.
  cbv zeta. unfold GPGMeWrapper_new. rewrite loadKeys_run, listKeys_run.
  unfold selectedKeyIndex, getKeys.
  cbn [fst snd calls m_keys m_selectedKeyIndex]. repeat split.
Qed.

(** X6: every key with at least one mail address is preferred for the
    empty mail address, a key is preferred for each of its own addresses,
    and a key preferred for an address is preferred for every part of
    that address. *)
Theorem isPreferredKey_parts (d_ : GPGKeyDetails) :
  (isPreferredKey mailAdresses d_ [] = true <-> mailAdresses d_ <> [])
  /\ (forall address,
        In address (mailAdresses d_) ->
        isPreferredKey mailAdresses d_ address = true)
  /\ (forall mailAddress_ pre part post,
        isPreferredKey mailAdresses d_ mailAddress_ = true ->
        mailAddress_ = pre ++ part ++ post ->
        isPreferredKey mailAdresses d_ part = true).
Proof.
  unfold isPreferredKey. repeat split.
  - intros H E. rewrite E in H. discriminate.
  - intros H. destruct (mailAdresses d_) as [|a rest]; [congruence|].
    cbn [isPreferredKey_loop]. rewrite QString_contains_nil. reflexivity.
  - intros address Hin. apply isPreferredKey_loop_spec.
    exists address. split; [exact Hin|].
    apply QString_contains_spec. exists [], []. rewrite app_nil_r.
    reflexivity.
  - intros mailAddress_ pre part post H ->.
    apply isPreferredKey_loop_spec in H. destruct H as [a [Hin Hc]].
    apply isPreferredKey_loop_spec. exists a. split; [exact Hin|].
    apply QString_contains_spec in Hc. destruct Hc as [pre' [post' ->]].
    apply QString_contains_spec. exists (pre' ++ pre), (post ++ post').
    rewrite <- !app_assoc. reflexivity.
Qed.

(** X7: a mail address longer than every mail address of the key is never
    preferred. *)
Theorem isPreferredKey_too_long (d_ : GPGKeyDetails)
  (mailAddress_ : QString) :
  (forall address, In address (mailAdresses d_) ->
     (QString_size address < QString_size mailAddress_)%nat) ->
  isPreferredKey mailAdresses d_ mailAddress_ = false.
Proof.
  intros Hshort. unfold isPreferredKey.
  destruct (isPreferredKey_loop (mailAdresses d_) mailAddress_) eqn:E;
    [|reflexivity].
  apply isPreferredKey_loop_spec in E. destruct E as [a [Hin Hc]].
  apply QString_contains_length in Hc. specialize (Hshort a Hin).
  unfold QString_size in Hshort. lia.
Qed.

End KeyRegistryFacts.

Lemma getUIDsForKey_loop_map (uid : list gpgme_user_id)
  (result : list QString) :
  getUIDsForKey_loop uid result
  = result ++ map (fun u => QString_fromCString (uid_name u)) uid.
Proof.
  revert result; induction uid as [|u next IH]; intros result;
    cbn [getUIDsForKey_loop map].
  - rewrite app_nil_r. reflexivity.
  - rewrite IH, <- app_assoc. reflexivity.
Qed.

(** X8: for a key whose user id names are ASCII text, [getUIDsForKey]
    returns exactly those names, one per user id, in the order of the
    key's list. *)
Theorem getUIDsForKey_ascii_names (key : gpgme_key) :
  Forall (fun u => Forall (fun b => 0 < b < 0x80) (uid_name u))
         (key_uids key) ->
  getUIDsForKey key = map uid_name (key_uids key).
Proof.
  intros Hnames. unfold getUIDsForKey. rewrite getUIDsForKey_loop_map.
  cbn [app]. apply map_ext_in. intros u Hu.
  pose proof (proj1 (Forall_forall _ _) Hnames u Hu) as Hname.
  unfold QString_fromCString. rewrite c_str_nonzero.
  - apply fromUtf8_ascii. unfold isAscii.
    eapply Forall_impl; [|exact Hname]. cbv beta. intros b Hb. lia.
  - eapply Forall_impl; [|exact Hname]. cbv beta. intros b Hb. lia.
Qed.

(* ================================================================= *)
(** ** More on decryption and encryption *)

Section CryptoFacts.

Variable gpg : Backend.

Implicit Types (w : World gpg).

(** X9: [decryptString] asks the engine for the key by its fingerprint
    (public keys included), and only when that lookup reports no error
    does it ask for one decryption; it never lists keys and never
    encrypts. *)
Theorem decryptString_requests (inputString_ fingerprint_ : QString) w :
  let lookup :=
    fst (engine_key gpg (decrypt_ctx gpg)
           (constData (toUtf8 fingerprint_)) false (store w)) in
  calls (snd (decryptString gpg inputString_ fingerprint_ w))
  = calls w
    ++ KeyLookup (constData (toUtf8 fingerprint_)) false
       :: (if Error_bool gpg (snd lookup) then []
           else [Decrypt (input_buffer inputString_)]).
Proof.
  cbv zeta. rewrite decryptString_run. cbv zeta.
  destruct (Error_bool gpg _); cbn [snd calls].
  - reflexivity.
  - rewrite <- app_assoc. reflexivity.
Qed.

(** X10: when the key is found and the engine decrypts without error,
    the result carries the whole output of the engine as text, both
    flags set, and an empty error message. *)
Theorem decrypt_success (inputString_ fingerprint_ : QString) w :
  let lookup :=
    engine_key gpg (decrypt_ctx gpg)
      (constData (toUtf8 fingerprint_)) false (store w) in
  let dec :=
    engine_decrypt gpg (decrypt_ctx gpg) (input_buffer inputString_)
      (snd lookup) in
  Error_bool gpg (snd (fst lookup)) = false ->
  Error_isZero gpg (fst (fst dec)) = true ->
  fst (decryptString gpg inputString_ fingerprint_ w)
  = {| resultString := fromStdString (snd (fst dec));
       keyFound := true; decryptionSuccess := true; errorMessage := [] |}.
Proof.
  cbv zeta. intros Hlookup Hdec. rewrite decryptString_run. cbv zeta.
  rewrite Hlookup. cbn [fst]. rewrite Hdec. reflexivity.
Qed.


(** X12: in every result of [decryptString] a payload and an error
    message exclude each other: success comes with an empty error
    message, a payload that is not empty comes only with success, and an
    error message that is not empty comes with no success and an empty
    payload. *)
Theorem decrypt_payload_or_error (inputString_ fingerprint_ : QString) w :
  let r := fst (decryptString gpg inputString_ fingerprint_ w) in
  (decryptionSuccess r = true -> errorMessage r = [])
  /\ (resultString r <> [] -> decryptionSuccess r = true)
  /\ (errorMessage r <> [] ->
      decryptionSuccess r = false /\ resultString r = []).
Proof.
  cbv zeta. rewrite decryptString_run. cbv zeta.
  destruct (Error_bool gpg _);
    [|destruct (Error_isZero gpg _)];
    cbn [fst decryptionSuccess errorMessage resultString];
    repeat split; intros; congruence.
Qed.

(** X13: a fingerprint reaches the engine as a C string, so for
    [decryptString] whatever follows a NUL character in the fingerprint
    is ignored. *)
Theorem decryptString_fingerprint_cut_at_nul
  (inputString_ fingerprint_ rest : QString) w :
  decryptString gpg inputString_ (fingerprint_ ++ 0 :: rest) w
  = decryptString gpg inputString_ fingerprint_ w.
Proof.
  rewrite !decryptString_run. unfold constData.
  rewrite toUtf8_app_nul, c_str_app_nul. reflexivity.
Qed.

(** X14: on the asymmetric path [encryptString] makes two requests, the
    listing and one encryption with the always-trust flag; the recipients
    of that encryption are at most one key, and each of them is one of
    the listed keys and has the requested primary fingerprint. *)
Theorem encrypt_recipients_safe
  (inputString_ fingerprint_ recipientMail_ : QString) w :
  let listed := fst (listKeys gpg recipientMail_ w) in
  let out := encryptString gpg inputString_ fingerprint_ recipientMail_
               false w in
  exists recipients,
    calls (snd out)
    = calls w ++ [StartKeyListing (constData (toUtf8 recipientMail_)) false;
                  Encrypt recipients (input_buffer inputString_) AlwaysTrust]
    /\ (List.length recipients <= 1)%nat
    /\ forall k, In k recipients ->
         In k listed
         /\ QString_fromCString (Key_primaryFingerprint gpg k) = fingerprint_.
Proof.
  cbv zeta. rewrite encryptString_run. cbv zeta. cbn [snd calls].
  exists (selection (find (has_fingerprint gpg fingerprint_)
                          (fst (listKeys gpg recipientMail_ w)))).
  split; [|split].
  - rewrite listKeys_run. cbv zeta. cbn [snd calls fst].
    rewrite <- app_assoc. reflexivity.
  - destruct (find _ _); cbn [selection List.length]; lia.
  - intros k Hk. destruct (find _ _) as [k0|] eqn:E; cbn [selection] in Hk.
    + destruct Hk as [<-|[]]. apply find_some in E. destruct E as [Hin Hfp].
      split; [exact Hin | apply QString_eqb_eq; exact Hfp].
    + destruct Hk.
Qed.

(** X15: on the asymmetric path, when the engine encrypts without error
    the result carries the whole ciphertext as text, success, and an
    empty error message; when it reports an error the payload is empty,
    success is not set, and the error message is ["Encryption Failed: "]
    followed by the engine's error string. *)
Theorem encrypt_asymmetric_outcome
  (inputString_ fingerprint_ recipientMail_ : QString) w :
  let listed := listKeys gpg recipientMail_ w in
  let enc :=
    engine_encrypt gpg (encrypt_ctx gpg)
      (selection (find (has_fingerprint gpg fingerprint_) (fst listed)))
      (input_buffer inputString_) AlwaysTrust (store (snd listed)) in
  let r := fst (encryptString gpg inputString_ fingerprint_ recipientMail_
                  false w) in
  (Error_isZero gpg (fst (fst enc)) = true ->
   resultString r = fromStdString (snd (fst enc))
   /\ decryptionSuccess r = true /\ errorMessage r = [])
  /\ (Error_isZero gpg (fst (fst enc)) = false ->
      resultString r = [] /\ decryptionSuccess r = false
      /\ errorMessage r
         = qs "Encryption Failed: "
           ++ QString_fromCString (Error_asString gpg (fst (fst enc)))).
Proof.
  cbv zeta. rewrite encryptString_run. cbv zeta.
  cbn [fst resultString decryptionSuccess errorMessage].
  split; intros ->; repeat split.
Qed.

(** X16: on the symmetric path, when the engine encrypts without error
    the result carries the whole ciphertext as text, success, and an
    empty error message. *)
Theorem encrypt_symmetric_success
  (inputString_ fingerprint_ recipientMail_ : QString) w :
  let listed := listKeys gpg recipientMail_ w in
  let enc :=
    engine_encryptSymmetrically gpg (encrypt_ctx gpg)
      (input_buffer inputString_) (store (snd listed)) in
  let r := fst (encryptString gpg inputString_ fingerprint_ recipientMail_
                  true w) in
  Error_bool gpg (fst (fst enc)) = false ->
  resultString r = fromStdString (snd (fst enc))
  /\ decryptionSuccess r = true /\ errorMessage r = [].
Proof.
  cbv zeta. intros Hok. rewrite encryptString_run. cbv zeta.
  cbn [fst resultString decryptionSuccess errorMessage]. rewrite Hok.
  repeat split.
Qed.

(** X18: on the symmetric path the fingerprint decides [keyFound] and
    nothing else: payload, success, error message, the requests made and
    the state the engine is left in are the same for any two
    fingerprints. *)
Theorem encrypt_symmetric_ignores_fingerprint
  (inputString_ fingerprint1 fingerprint2 recipientMail_ : QString) w :
  let out1 := encryptString gpg inputString_ fingerprint1 recipientMail_
                true w in
  let out2 := encryptString gpg inputString_ fingerprint2 recipientMail_
                true w in
  resultString (fst out1) = resultString (fst out2)
  /\ decryptionSuccess (fst out1) = decryptionSuccess (fst out2)
  /\ errorMessage (fst out1) = errorMessage (fst out2)
  /\ snd out1 = snd out2.
Proof.
  cbv zeta. rewrite !encryptString_run. cbv zeta. repeat split.
Qed.

(** X19: in every result of [encryptString], on either path, success
    comes with an empty error message, and [keyFound] is set exactly when
    one of the keys listed for the recipient mail has the requested
    primary fingerprint; in particular [keyFound] does not depend on the
    path taken. *)
Theorem encrypt_result_invariant
  (inputString_ fingerprint_ recipientMail_ : QString)
  (symmetricEncryption_ : bool) w :
  let listed := fst (listKeys gpg recipientMail_ w) in
  let r := fst (encryptString gpg inputString_ fingerprint_ recipientMail_
                  symmetricEncryption_ w) in
  (decryptionSuccess r = true -> errorMessage r = [])
  /\ (keyFound r = true <->
      exists k, In k listed
                /\ QString_fromCString (Key_primaryFingerprint gpg k)
                   = fingerprint_)
  /\ keyFound r
     = keyFound (fst (encryptString gpg inputString_ fingerprint_
                        recipientMail_ (negb symmetricEncryption_) w)).
Proof.
  cbv zeta. rewrite !encryptString_run. cbv zeta.
  assert (Hfound :
    is_found (find (has_fingerprint gpg fingerprint_)
                   (fst (listKeys gpg recipientMail_ w))) = true <->
    exists k, In k (fst (listKeys gpg recipientMail_ w))
              /\ QString_fromCString (Key_primaryFingerprint gpg k)
                 = fingerprint_).
  { rewrite is_found_existsb, existsb_exists. unfold has_fingerprint.
    split; intros [k [Hin Hfp]]; exists k; (split; [exact Hin|]);
      apply QString_eqb_eq; exact Hfp. }
  destruct symmetricEncryption_;
    cbn [negb fst decryptionSuccess errorMessage keyFound];
    (split; [|split; [exact Hfound | reflexivity]]).
  - reflexivity.
  - intros ->. reflexivity.
Qed.

(** X20: the size handed to the engine together with the encoded input
    never reaches past the encoded bytes: the input buffer is a leading
    part of the UTF-8 encoding, of as many bytes as the input has code
    units. *)
Theorem input_buffer_in_bounds (inputString_ : QString) :
  (QString_size inputString_ <= List.length (toUtf8 inputString_))%nat
  /\ List.length (input_buffer inputString_) = QString_size inputString_
  /\ exists rest, toUtf8 inputString_ = input_buffer inputString_ ++ rest.
Proof.
  split; [apply toUtf8_size_le|]. split; [apply input_buffer_length|].
  exists (skipn (QString_size inputString_) (toUtf8 inputString_)).
  unfold input_buffer, Data_fromBuffer. symmetry. apply firstn_skipn.
Qed.

(** X21: the symmetric round trip on ASCII text: when the symmetric
    encryption gives ASCII armor, and the engine, asked with a fingerprint
    it knows, decrypts that armor to the plain text it was given, then
    decrypting the payload of the encryption gives back the text.  The
    fingerprint lookup is needed although no key took part in the
    encryption. *)
Theorem roundtrip_symmetric_ascii (text fp fp' mail : QString)
  (w w' : World gpg) :
  let listed := listKeys gpg mail w in
  let enc :=
    engine_encryptSymmetrically gpg (encrypt_ctx gpg) text
      (store (snd listed)) in
  let lookup :=
    engine_key gpg (decrypt_ctx gpg) (constData (toUtf8 fp')) false
      (store w') in
  let dec :=
    engine_decrypt gpg (decrypt_ctx gpg) (snd (fst enc)) (snd lookup) in
  isAscii text ->
  Error_bool gpg (fst (fst enc)) = false ->
  isAscii (snd (fst enc)) ->
  Error_bool gpg (snd (fst lookup)) = false ->
  Error_isZero gpg (fst (fst dec)) = true ->
  snd (fst dec) = text ->
  resultString
    (fst (decryptString gpg
            (resultString (fst (encryptString gpg text fp mail true w)))
            fp' w')) = text.
Proof.
  cbv zeta. intros Htext Henc Harmor Hlookup Hdec Hplain.
  rewrite encryptString_run. cbv zeta. cbn [fst resultString].
  rewrite (input_buffer_ascii text Htext), Henc.
  unfold fromStdString, Data_toString.
  rewrite (fromUtf8_ascii _ Harmor).
  rewrite decryptString_run. cbv zeta. rewrite Hlookup.
  cbn [fst resultString].
  rewrite (input_buffer_ascii _ Harmor), Hdec, Hplain.
  apply fromUtf8_ascii. exact Htext.
Qed.

End CryptoFacts.

Section ComposedFacts.

Variable gpg : Backend.
Variable GPGKeyDetails : Type.
Variable loadFromGPGMeKey : Key gpg -> GPGKeyDetails.

(** X24: for ASCII text the engine receives the text itself, byte for
    code unit: on the symmetric encryption path, and on the decryption
    path whenever the key is found. *)
Theorem ascii_input_reaches_engine (inputString_ fingerprint_
  recipientMail_ : QString) (w : World gpg) :
  isAscii inputString_ ->
  calls (snd (encryptString gpg inputString_ fingerprint_ recipientMail_
                true w))
  = calls w ++ [StartKeyListing (constData (toUtf8 recipientMail_)) false;
                EncryptSymmetrically inputString_]
  /\ (Error_bool gpg
        (snd (fst (engine_key gpg (decrypt_ctx gpg)
                     (constData (toUtf8 fingerprint_)) false (store w))))
      = false ->
      calls (snd (decryptString gpg inputString_ fingerprint_ w))
      = calls w ++ [KeyLookup (constData (toUtf8 fingerprint_)) false;
                    Decrypt inputString_]).
Proof.
  intros Hascii. split.
  - rewrite encryptString_run. cbv zeta. cbn [snd calls].
    rewrite listKeys_run. cbv zeta. cbn [snd calls].
    rewrite (input_buffer_ascii _ Hascii), <- app_assoc. reflexivity.
  - intros Hok. rewrite decryptString_run. cbv zeta. rewrite Hok.
    cbn [snd calls].
    rewrite (input_buffer_ascii _ Hascii), <- app_assoc. reflexivity.
Qed.

(** X25: reloading replaces, it never accumulates: as long as the engine
    answers the listing for the second pattern as it would have before
    the first reload, the registry after two reloads is the registry
    after the second reload alone. *)
Theorem loadKeys_replaces (pattern1 pattern2 : QString)
  (this : GPGMeWrapper GPGKeyDetails) (w : World gpg) :
  let first := loadKeys gpg loadFromGPGMeKey pattern1 this w in
  fst (engine_startKeyListing gpg (listing_ctx gpg)
         (constData (toUtf8 pattern2)) false (store (snd first)))
  = fst (engine_startKeyListing gpg (listing_ctx gpg)
           (constData (toUtf8 pattern2)) false (store w)) ->
  getKeys (fst (loadKeys gpg loadFromGPGMeKey pattern2 (fst first)
                  (snd first)))
  = getKeys (fst (loadKeys gpg loadFromGPGMeKey pattern2 this w)).
Proof.
  cbv zeta. intros Hsame. rewrite loadKeys_run in Hsame.
  cbn [snd] in Hsame. rewrite listKeys_run in Hsame. cbv zeta in Hsame.
  cbn [snd store] in Hsame.
  rewrite !loadKeys_run. unfold getKeys.
  cbn [fst snd m_keys]. rewrite !listKeys_run. cbv zeta. cbn [fst snd store].
  rewrite Hsame. reflexivity.
Qed.

End ComposedFacts.

(* ================================================================= *)
(** ** The further properties on the sample engine *)

Section FactsOnSample.

Import Sample.

Ltac computed := vm_compute; first [reflexivity | discriminate].

(** X3, witness: the index 5, set before a reload that finds no key, and
    the index 2^32 + 5, which arrives as 5. *)
Lemma loadKeys_keeps_cursor_witness :
  let this := mkWrapper [load alice] 0 in
  selectedKeyIndex Details
    (fst (loadKeys backend load (qs "nobody")
            (setSelectedKeyIndex Details 5 this) (world ring))) = 5
  /\ selectedKeyIndex Details
       (fst (loadKeys backend load (qs "nobody")
               (setSelectedKeyIndex Details 0x100000005 this) (world ring)))
     = 5.
Proof.
  cbv zeta. split.
  - apply (proj1 (proj2 (loadKeys_keeps_cursor backend Details load
                           (qs "nobody") 5 (mkWrapper [load alice] 0)
                           (world ring)))).
    lia.
  - apply (proj1 (loadKeys_keeps_cursor backend Details load
                    (qs "nobody") 0x100000005 (mkWrapper [load alice] 0)
                    (world ring))).
Defined.

(** X4, witness: a locked ring wipes a registry that held [alice]. *)
Lemma loadKeys_failed_listing_clears_witness :
  let this := mkWrapper [load alice] 3 in
  let this' := fst (loadKeys backend load (qs "alice") this
                      (world ring_locked)) in
  getKeys this' = [] /\ getNumKeys this' = 0%nat.
Proof.
  cbv zeta.
  apply (loadKeys_failed_listing_clears backend Details load (qs "alice")
           (mkWrapper [load alice] 3) (world ring_locked)).
  computed.
Defined.

(** X6, witness: [alice] is preferred for the empty address, for her own
    address, and for the part ["example"] of it. *)
Lemma isPreferredKey_parts_witness :
  isPreferredKey mails (load alice) [] = true
  /\ isPreferredKey mails (load alice) (qs "alice@example.org") = true
  /\ isPreferredKey mails (load alice) (qs "example") = true.
Proof.
  pose proof (isPreferredKey_parts Details mails (load alice))
    as [Hnil [Hown Hpart]].
  split; [|split].
  - apply Hnil. discriminate.
  - apply Hown. left. reflexivity.
  - apply (Hpart (qs "alice@example.org") (qs "alice@") (qs "example")
             (qs ".org")).
    + apply Hown. left. reflexivity.
    + reflexivity.
Defined.

(** X7, witness: an address longer than the one address of [alice]. *)
Lemma isPreferredKey_too_long_witness :
  isPreferredKey mails (load alice) (qs "alice@example.org.uk") = false.
Proof.
  apply (isPreferredKey_too_long Details mails (load alice)
           (qs "alice@example.org.uk")).
  intros address [<-|[]]. vm_compute. lia.
Defined.

(** X8, witness: a raw key with two user ids. *)
Lemma getUIDsForKey_ascii_names_witness :
  getUIDsForKey
    (mk_gpgme_key [mk_gpgme_user_id (qs "Alice"); mk_gpgme_user_id (qs "Bob")])
  = [qs "Alice"; qs "Bob"].
Proof.
  apply (getUIDsForKey_ascii_names
           (mk_gpgme_key [mk_gpgme_user_id (qs "Alice");
                          mk_gpgme_user_id (qs "Bob")])).
  repeat constructor.
Defined.

(** X10, witness: the armor ["GiGj"] of ["hi"], decrypted with the key of
    [alice]. *)
Lemma decrypt_success_witness :
  fst (decryptString backend (qs "GiGj") (qs "A1B2") (world ring))
  = {| resultString := qs "hi"; keyFound := true;
       decryptionSuccess := true; errorMessage := [] |}.
Proof.
  apply (decrypt_success backend (qs "GiGj") (qs "A1B2") (world ring));
    computed.
Defined.


(** X12, witness: the successful and the failed decryption above. *)
Lemma decrypt_payload_or_error_witness :
  errorMessage
    (fst (decryptString backend (qs "GiGj") (qs "A1B2") (world ring))) = []
  /\ decryptionSuccess
       (fst (decryptString backend (qs "GiGj") (qs "A1B2") (world ring)))
     = true
  /\ resultString
       (fst (decryptString backend (qs "x") (qs "A1B2") (world ring))) = [].
Proof.
  split; [|split].
  - apply (proj1 (decrypt_payload_or_error backend (qs "GiGj") (qs "A1B2")
                    (world ring))). computed.
  - apply (proj1 (proj2 (decrypt_payload_or_error backend (qs "GiGj")
                           (qs "A1B2") (world ring)))). computed.
  - apply (proj2 (proj2 (decrypt_payload_or_error backend (qs "x")
                           (qs "A1B2") (world ring)))). computed.
Defined.

(** X15, witness: encryption for [alice], and encryption for a
    fingerprint that is not on the ring (no recipient, which the sample
    engine refuses). *)
Lemma encrypt_asymmetric_outcome_witness :
  let ok := fst (encryptString backend (qs "hi") (qs "A1B2") (qs "alice")
                   false (world ring)) in
  let ko := fst (encryptString backend (qs "hi") (qs "FFFF") (qs "alice")
                   false (world ring)) in
  (resultString ok = qs "GiGj"
   /\ decryptionSuccess ok = true /\ errorMessage ok = [])
  /\ (resultString ko = [] /\ decryptionSuccess ko = false
      /\ errorMessage ko = qs "Encryption Failed: Invalid value").
Proof.
  cbv zeta. split.
  - apply (proj1 (encrypt_asymmetric_outcome backend (qs "hi") (qs "A1B2")
                    (qs "alice") (world ring))). computed.
  - apply (proj2 (encrypt_asymmetric_outcome backend (qs "hi") (qs "FFFF")
                    (qs "alice") (world ring))). computed.
Defined.

(** X16, witness: symmetric encryption of ["hi"]. *)
Lemma encrypt_symmetric_success_witness :
  let r := fst (encryptString backend (qs "hi") [] [] true (world ring)) in
  resultString r = qs "GiGj"
  /\ decryptionSuccess r = true /\ errorMessage r = [].
Proof.
  cbv zeta.
  apply (encrypt_symmetric_success backend (qs "hi") [] [] (world ring)).
  computed.
Defined.

(** X19, witness: [alice] is listed for ["alice"] and has the
    fingerprint, on the symmetric path as well. *)
Lemma encrypt_result_invariant_witness :
  keyFound (fst (encryptString backend (qs "hi") (qs "A1B2") (qs "alice")
                   true (world ring))) = true
  /\ errorMessage (fst (encryptString backend (qs "hi") (qs "A1B2")
                          (qs "alice") false (world ring))) = [].
Proof.
  split.
  - apply (proj1 (proj2 (encrypt_result_invariant backend (qs "hi")
                           (qs "A1B2") (qs "alice") true (world ring)))).
    exists alice. split; [left|]; reflexivity.
  - apply (proj1 (encrypt_result_invariant backend (qs "hi") (qs "A1B2")
                    (qs "alice") false (world ring))).
    computed.
Defined.

(** X21, witness: ["hello"] encrypted symmetrically, without fingerprint
    or recipient, and decrypted with the fingerprint of [alice]. *)
Lemma roundtrip_symmetric_ascii_witness :
  let enc := encryptString backend (qs "hello") [] [] true (world ring) in
  resultString
    (fst (decryptString backend (resultString (fst enc)) (qs "A1B2")
            (snd enc))) = qs "hello".
Proof.
  cbv zeta.
  apply (roundtrip_symmetric_ascii backend (qs "hello") [] (qs "A1B2") []
           (world ring)
           (snd (encryptString backend (qs "hello") [] [] true
                   (world ring)))).
  all: try (apply isAscii_forallb); computed.
Defined.

(** X23, witness: the text of the single code unit U+00E9. *)
Lemma toUtf8_size_lt_witness :
  (List.length (input_buffer [0xe9%Z]) < List.length (toUtf8 [0xe9%Z]))%nat.
Proof.
  apply (toUtf8_size_lt [0xe9]).
  constructor. split; [lia | reflexivity].
Defined.

(** X24, witness: ["GiGj"] on its way to the engine. *)
Lemma ascii_input_reaches_engine_witness :
  calls (snd (encryptString backend (qs "GiGj") [] [] true (world ring)))
  = [StartKeyListing [] false; EncryptSymmetrically (qs "GiGj")]
  /\ calls (snd (decryptString backend (qs "GiGj") (qs "A1B2") (world ring)))
     = [KeyLookup (qs "A1B2") false; Decrypt (qs "GiGj")].
Proof.
  pose proof (ascii_input_reaches_engine backend (qs "GiGj") (qs "A1B2") []
                (world ring)) as H.
  destruct H as [Henc Hdec].
  - apply isAscii_forallb. computed.
  - split.
    + exact Henc.
    + apply Hdec. computed.
Defined.

(** X25, witness: a reload for ["bob"] after a reload for ["alice"]. *)
Lemma loadKeys_replaces_witness :
  let first := loadKeys backend load (qs "alice") (mkWrapper [] 0)
                 (world ring) in
  getKeys (fst (loadKeys backend load (qs "bob") (fst first) (snd first)))
  = getKeys (fst (loadKeys backend load (qs "bob") (mkWrapper [] 0)
                    (world ring))).
Proof.
  cbv zeta.
  apply (loadKeys_replaces backend Details load (qs "alice") (qs "bob")
           (mkWrapper [] 0) (world ring)).
  computed.
Defined.

End FactsOnSample.
